(** * Radial menu: slice membership, cursor tracking and selection

    A shallow embedding of [grm/radialmenu.py].  Python integers are [Z],
    Python floats are binary64 primitive floats, Python lists are lists,
    [None]-able attributes are options, and raised exceptions are the
    [Raise] branch of [result]. *)

From Stdlib Require Import ZArith List Bool Lia Permutation.
From Stdlib Require Import PrimFloat Uint63 FloatOps SpecFloat.
Import ListNotations.
Open Scope Z_scope.
Set Warnings "-inexact-float".

(** ** Exceptions *)

Inductive exn : Type :=
| KeyError
| IndexError
| TypeError
| ValueError.

(** The outcome of a call: a value, a raised exception, or [OutOfFuel] when
    the pass budget given to a [while] loop of the model was too small (the
    termination theorems show it is never the outcome of the menu's own
    calls). *)
Inductive result (A : Type) : Type :=
| Ok (a : A)
| Raise (e : exn)
| OutOfFuel.

Arguments Ok {A} a.
Arguments Raise {A} e.
Arguments OutOfFuel {A}.

Definition bind {A B : Type} (r : result A) (k : A -> result B) : result B :=
  match r with
  | Ok a => k a
  | Raise e => Raise e
  | OutOfFuel => OutOfFuel
  end.

Notation "x <- r ;; k" := (bind r (fun x => k))
  (at level 61, r at next level, right associativity).
Notation "' p <- r ;; k" := (bind r (fun x => match x with p => k end))
  (at level 61, p pattern, r at next level, right associativity).

(** ** Positions and the slice table *)

Module Position.
(** The keys of [self.slices]: the eight compass strings. *)
Inductive t : Type := E | SE | S | SW | W | NW | N | NE.

Definition opposite (p : t) : t :=
  match p with
  | E => W | SE => NW | S => N | SW => NE
  | W => E | NW => SE | N => S | NE => SW
  end.
End Position.

(** [self.slices]: each position owns two 22.5 degree slices. *)
Definition slices_table (p : Position.t) : list Z :=
  match p with
  | Position.E => [15; 0]
  | Position.SE => [1; 2]
  | Position.S => [3; 4]
  | Position.SW => [5; 6]
  | Position.W => [7; 8]
  | Position.NW => [9; 10]
  | Position.N => [11; 12]
  | Position.NE => [13; 14]
  end.

(** [self.slices[position]]: a column item has position [None], which is not
    a key of the table. *)
Definition slices_lookup (position : option Position.t) : result (list Z) :=
  match position with
  | Some p => Ok (slices_table p)
  | None => Raise KeyError
  end.

Definition pie_max : Z := 15.

Definition pie_next (value : Z) : Z :=
  if value =? pie_max then 0 else value + 1.

Definition pie_last (value : Z) : Z :=
  if value =? 0 then pie_max else value - 1.

(** ** Items *)

(** [QtCore.QRect(x, y, w, h)]. *)
Record QRect : Type := mkQRect { rx : Z; ry : Z; rw : Z; rh : Z }.

Record QPoint : Type := mkQPoint { px : Z; py : Z }.

(** A handle on the Python callable stored by [connect]. *)
Definition Callable : Type := nat.

(** The attributes of a [RadialMenuItem] the menu reads and writes.  An item
    that never went through [update_slice_membership] has no [slices]
    attribute; it is represented by the empty list.  The items of a menu are
    distinct objects: no item is registered twice. *)
Record RadialMenuItem : Type := mkItem {
  position : option Position.t;
  p_rect : QRect;
  slices : list Z;
  function : option Callable
}.

Definition set_slices (item : RadialMenuItem) (sl : list Z) : RadialMenuItem :=
  mkItem (position item) (p_rect item) sl (function item).

Definition set_p_rect (item : RadialMenuItem) (r : QRect) : RadialMenuItem :=
  mkItem (position item) r (slices item) (function item).

(** ** update_slice_membership *)

(** [x in l] on a list of integers. *)
Definition mem (x : Z) (l : list Z) : bool := existsb (Z.eqb x) l.

(** The first loop: every item gets a copy of its default slices and the
    defaults are accumulated in [slices_used], in item order. *)
Fixpoint reset_slices (items : list RadialMenuItem)
  : result (list Z * list RadialMenuItem) :=
  match items with
  | [] => Ok ([], [])
  | item :: rest =>
      sl <- slices_lookup (position item) ;;
      ' (used, rest') <- reset_slices rest ;;
      Ok (sl ++ used, set_slices item sl :: rest')
  end.

(** The body of the inner [for]: one item looks at [slices[0]] and
    [slices[-1]] and appends the neighbours that are not yet used. *)
Definition claim_neighbours (slices_used : list Z) (item : RadialMenuItem)
  : result (list Z * RadialMenuItem) :=
  match slices item with
  | [] => Raise IndexError
  | first :: _ =>
      let n := pie_last first in
      let l := pie_next (last (slices item) first) in
      let '(sl1, used1) :=
        if negb (mem n slices_used)
        then (slices item ++ [n], slices_used ++ [n])
        else (slices item, slices_used) in
      let '(sl2, used2) :=
        if negb (mem l used1)
        then (sl1 ++ [l], used1 ++ [l])
        else (sl1, used1) in
      Ok (used2, set_slices item sl2)
  end.

(** One pass of [for item in self.items]. *)
Fixpoint claim_pass (slices_used : list Z) (items : list RadialMenuItem)
  : result (list Z * list RadialMenuItem) :=
  match items with
  | [] => Ok (slices_used, [])
  | item :: rest =>
      ' (used1, item') <- claim_neighbours slices_used item ;;
      ' (used2, rest') <- claim_pass used1 rest ;;
      Ok (used2, item' :: rest')
  end.

(** [while len(slices_used) < 16], with a budget of passes. *)
Fixpoint claim_loop (fuel : nat) (slices_used : list Z)
  (items : list RadialMenuItem) : result (list Z * list RadialMenuItem) :=
  if (Z.of_nat (length slices_used) <? 16)
  then match fuel with
       | O => OutOfFuel
       | Datatypes.S fuel' =>
           ' (used', items') <- claim_pass slices_used items ;;
           claim_loop fuel' used' items'
       end
  else Ok (slices_used, items).

Definition update_slice_membership_fuel (fuel : nat)
  (items : list RadialMenuItem) : result (list Z * list RadialMenuItem) :=
  ' (used, items') <- reset_slices items ;;
  claim_loop fuel used items'.

(** Sixteen passes always suffice (see [update_slice_membership_total]). *)
Definition update_slice_membership (items : list RadialMenuItem)
  : result (list RadialMenuItem) :=
  ' (_, items') <- update_slice_membership_fuel 16 items ;;
  Ok items'.

(** ** Numbers *)

(** Python's conversion of an [int] to a [float]; exact below [2^53], which
    covers differences of screen coordinates. *)
Definition float_of_Z (z : Z) : float :=
  match z with
  | Z0 => PrimFloat.zero
  | Zpos _ => PrimFloat.of_uint63 (Uint63.of_Z z)
  | Zneg _ => PrimFloat.opp (PrimFloat.of_uint63 (Uint63.of_Z (- z)))
  end.

(** [math.hypot(x, y)] on two integers: the Euclidean norm, computed as
    [sqrt(x*x + y*y)].  The squares and their sum are exact while
    [x*x + y*y] stays below [2^53], that is for offsets below [2^26], which
    covers differences of screen coordinates; beyond that the library's
    value can differ from this one in the last bit. *)
Definition math_hypot (x y : Z) : float :=
  let fx := float_of_Z x in
  let fy := float_of_Z y in
  PrimFloat.sqrt (fx * fx + fy * fy)%float.

(** [int(f)]: truncation towards zero; [ValueError] on a NaN or an infinity
    (Python raises [OverflowError] for the latter). *)
Definition int_ (f : float) : result Z :=
  match Prim2SF f with
  | S754_zero _ => Ok 0
  | S754_finite s m e =>
      let v := if 0 <=? e then Zpos m * 2 ^ e else Zpos m / 2 ^ (- e) in
      Ok (if s then - v else v)
  | _ => Raise ValueError
  end.

(** [sum(numbers)] followed by [float(...)]. *)
Definition sum (numbers : list float) : float :=
  fold_left PrimFloat.add numbers PrimFloat.zero.

Definition mean (numbers : list float) : float :=
  (sum numbers / float_of_Z (Z.max (Z.of_nat (length numbers)) 1))%float.

(** ** The menu *)

Record RadialMenu : Type := mkMenu {
  items : list RadialMenuItem;
  column_widget_items : list RadialMenuItem;
  column_widget_rects : list QRect;
  column_widget_rect : option QRect;
  column_widget_enabled : bool;
  activeItem : option RadialMenuItem;
  gesture : bool;
  timer_active : bool;
  visible : bool;
  startPos : QPoint;
  livePos : QPoint;
  lastCursorPosition : option QPoint;
  lastTime : option float;
  cursorChange : list float;
  timeChange : list float
}.

(** What calling an item's [function] does: it may change the menu in any
    way and then returns or raises. *)
Inductive CallOutcome : Type :=
| Returns (m : RadialMenu)
| Raises (m : RadialMenu).

(** The collaborators of the menu that live in Qt, in the C maths library and
    in the application: nothing is assumed about them. *)
Class Toolkit : Type := {
  (** [QRect.contains(QPoint)] *)
  contains : QRect -> QPoint -> bool;
  (** the truth value of a [QRect] and of a [QPoint] object *)
  rect_bool : QRect -> bool;
  point_bool : QPoint -> bool;
  (** [self.mapFromParent] and [self.column_widget.mapFromGlobal] *)
  mapFromParent : QPoint -> QPoint;
  column_mapFromGlobal : QPoint -> QPoint;
  (** [math.atan2] and [math.degrees] *)
  math_atan2 : float -> float -> float;
  math_degrees : float -> float;
  (** the rectangles [add_radial_item] and [add_column_item] derive from the
      font metrics and the screen ratio: an item's own rectangle, and the
      rectangle of the whole column for the given column items *)
  radial_rect : RadialMenuItem -> QRect;
  column_item_rect : list RadialMenuItem -> QRect;
  column_rect : list RadialMenuItem -> QRect;
  (** running a connected callable *)
  call : Callable -> RadialMenu -> CallOutcome
}.

(** [RadialMenu.__init__], with an arbitrary value for the attributes that
    [popup] sets before they are read. *)
Definition init : RadialMenu :=
  mkMenu [] [] [] None true None true false false
         (mkQPoint 0 0) (mkQPoint 0 0) None None [] [].

Definition with_items (m : RadialMenu) (its : list RadialMenuItem) : RadialMenu :=
  mkMenu its (column_widget_items m) (column_widget_rects m)
         (column_widget_rect m) (column_widget_enabled m) (activeItem m)
         (gesture m) (timer_active m) (visible m) (startPos m) (livePos m)
         (lastCursorPosition m) (lastTime m) (cursorChange m) (timeChange m).

Definition with_column (m : RadialMenu) (its : list RadialMenuItem)
  (rects : list QRect) (rect : option QRect) : RadialMenu :=
  mkMenu (items m) its rects rect (column_widget_enabled m) (activeItem m)
         (gesture m) (timer_active m) (visible m) (startPos m) (livePos m)
         (lastCursorPosition m) (lastTime m) (cursorChange m) (timeChange m).

(** Apply [f] to the last element of a list: the item just appended. *)
Fixpoint update_last {A : Type} (f : A -> A) (l : list A) : list A :=
  match l with
  | [] => []
  | [a] => [f a]
  | a :: rest => a :: update_last f rest
  end.

Section Menu.
Context {tk : Toolkit}.

Definition add_radial_item (m : RadialMenu) : result RadialMenu :=
  its <- update_slice_membership (items m) ;;
  Ok (with_items m (update_last (fun it => set_p_rect it (radial_rect it)) its)).

Definition add_column_item (m : RadialMenu) (item : RadialMenuItem)
  : result RadialMenu :=
  let column_items := filter (fun it => match position it with
                                        | None => true
                                        | Some _ => false
                                        end) (items m) in
  let item' := set_p_rect item (column_item_rect column_items) in
  Ok (with_column
        (with_items m (update_last (fun _ => item') (items m)))
        (column_widget_items m ++ [item'])
        (column_widget_rects m ++ [p_rect item'])
        (Some (column_rect column_items))).

Definition add_item (m : RadialMenu) (item : RadialMenuItem)
  : result RadialMenu :=
  let m1 := with_items m (items m ++ [item]) in
  match position item with
  | Some _ => add_radial_item m1
  | None => add_column_item m1 item
  end.

(** A sequence of registrations; the first exception ends it. *)
Fixpoint add_items (m : RadialMenu) (its : list RadialMenuItem)
  : result RadialMenu :=
  match its with
  | [] => Ok m
  | item :: rest => m' <- add_item m item ;; add_items m' rest
  end.

Definition angleFromPoints (p1 p2 : QPoint) : float :=
  let radians := math_atan2 (float_of_Z (py p2 - py p1))
                            (float_of_Z (px p2 - px p1)) in
  let degrees := math_degrees radians in
  if (degrees <? 0)%float then (degrees + 360)%float else degrees.

(** Truth value of an attribute that is [None] or a Qt object. *)
Definition truthy {A : Type} (b : A -> bool) (o : option A) : bool :=
  match o with
  | Some a => b a
  | None => false
  end.

(** The [for i in xrange(len(rects))] scan of the column. *)
Fixpoint column_scan (rects : list QRect) (its : list RadialMenuItem)
  (cursor_pos : QPoint) : result (option RadialMenuItem) :=
  match rects with
  | [] => Ok None
  | rect :: rects' =>
      if contains rect cursor_pos
      then match its with
           | item :: _ => Ok (Some item)
           | [] => Raise IndexError
           end
      else column_scan rects' (tl its) cursor_pos
  end.

(** The [for item in self.items] scan of the radial items; [active] is
    [self.activeItem] so far. *)
Fixpoint radial_scan (its : list RadialMenuItem) (cursor_pos : QPoint)
  (rad_slice : Z) (active : option RadialMenuItem) : option RadialMenuItem :=
  match its with
  | [] => active
  | item :: rest =>
      match position item with
      | None => radial_scan rest cursor_pos rad_slice active
      | Some _ =>
          if contains (p_rect item) cursor_pos then Some item
          else if mem rad_slice (slices item)
               then radial_scan rest cursor_pos rad_slice (Some item)
               else radial_scan rest cursor_pos rad_slice active
      end
  end.

Definition with_selection (m : RadialMenu) (live : QPoint) (enabled : bool)
  (active : option RadialMenuItem) : RadialMenu :=
  mkMenu (items m) (column_widget_items m) (column_widget_rects m)
         (column_widget_rect m) enabled active
         (gesture m) (timer_active m) (visible m) (startPos m) live
         (lastCursorPosition m) (lastTime m) (cursorChange m) (timeChange m).

(** [updateWidget]; [cursor] is what [QtGui.QCursor.pos()] returns. *)
Definition updateWidget (m : RadialMenu) (cursor : QPoint) : result RadialMenu :=
  let length := math_hypot (px (startPos m) - px cursor)
                           (py (startPos m) - py cursor) in
  let angle := angleFromPoints (startPos m) cursor in
  rad_slice <- int_ (angle / 22.5)%float ;;
  let column_mode := negb (gesture m) && truthy rect_bool (column_widget_rect m) in
  let enabled := if column_mode then true else column_widget_enabled m in
  let cursor_pos := mapFromParent cursor in
  if (20 <? length)%float then
    ' (active, cursor_pos) <-
      match column_mode, column_widget_rect m with
      | true, Some rect =>
          if contains rect cursor_pos
          then let cursor_pos := column_mapFromGlobal cursor in
               active <- column_scan (column_widget_rects m)
                                     (column_widget_items m) cursor_pos ;;
               Ok (active, cursor_pos)
          else Ok (None, cursor_pos)
      | _, _ => Ok (None, cursor_pos)
      end ;;
    match active with
    | Some item => Ok (with_selection m cursor enabled (Some item))
    | None =>
        Ok (with_selection m cursor enabled
              (radial_scan (items m) cursor_pos rad_slice None))
    end
  else Ok (with_selection m cursor enabled None).

Definition mouseMoveEvent (m : RadialMenu) (cursor : QPoint) : result RadialMenu :=
  updateWidget m cursor.

Definition close_menu (m : RadialMenu) : RadialMenu :=
  mkMenu (items m) (column_widget_items m) (column_widget_rects m)
         (column_widget_rect m) false None
         (gesture m) false (visible m) (startPos m) (livePos m)
         (lastCursorPosition m) (lastTime m) (cursorChange m) (timeChange m).

Definition hide (m : RadialMenu) : RadialMenu :=
  mkMenu (items m) (column_widget_items m) (column_widget_rects m)
         (column_widget_rect m) (column_widget_enabled m) (activeItem m)
         (gesture m) (timer_active m) false (startPos m) (livePos m)
         (lastCursorPosition m) (lastTime m) (cursorChange m) (timeChange m).

(** [mouseReleaseEvent]: the [try] / bare [except] around the call swallows
    whatever the callable raises.  The calls into Qt ([sendEvent], [hide],
    [setEnabled], [stop]) are taken to return. *)
Definition mouseReleaseEvent (m : RadialMenu) : result RadialMenu :=
  let m1 := hide m in
  let m2 :=
    match activeItem m1 with
    | Some item =>
        match function item with
        | Some f =>
            match call f m1 with
            | Returns m' => m'
            | Raises m' => m'
            end
        | None => m1
        end
    | None => m1
    end in
  Ok (close_menu m2).

Definition timer_start (m : RadialMenu) : RadialMenu :=
  mkMenu (items m) (column_widget_items m) (column_widget_rects m)
         (column_widget_rect m) (column_widget_enabled m) (activeItem m)
         true true (visible m) (startPos m) (livePos m)
         None None [] [].

Definition popup (m : RadialMenu) (pos : QPoint) : RadialMenu :=
  timer_start
    (mkMenu (items m) (column_widget_items m) (column_widget_rects m)
            (column_widget_rect m) (column_widget_enabled m) (activeItem m)
            (gesture m) (timer_active m) true pos (livePos m)
            (lastCursorPosition m) (lastTime m) (cursorChange m) (timeChange m)).

(** What one timer tick reads from the outside: the cursor and the clock
    in [track_cursor], and the cursor again should [updateWidget] run. *)
Record Tick : Type := mkTick {
  tick_pos : QPoint;
  tick_time : float;
  tick_live : QPoint
}.

Definition samples : nat := 40.
Definition cursor_speed_tolerance : float := 0.02%float.

(** The [for i in xrange(samples-1)] shift followed by the store at index
    [samples - 1]. *)
Definition shift_in (buf : list float) (x : float) : list float :=
  firstn (samples - 1) (tl buf) ++ [x] ++ skipn samples buf.

Definition with_gesture (m : RadialMenu) (g : bool) : RadialMenu :=
  mkMenu (items m) (column_widget_items m) (column_widget_rects m)
         (column_widget_rect m) (column_widget_enabled m) (activeItem m)
         g (timer_active m) (visible m) (startPos m) (livePos m)
         (lastCursorPosition m) (lastTime m) (cursorChange m) (timeChange m).

Definition with_timer (m : RadialMenu) (t : bool) : RadialMenu :=
  mkMenu (items m) (column_widget_items m) (column_widget_rects m)
         (column_widget_rect m) (column_widget_enabled m) (activeItem m)
         (gesture m) t (visible m) (startPos m) (livePos m)
         (lastCursorPosition m) (lastTime m) (cursorChange m) (timeChange m).

Definition with_tracking (m : RadialMenu) (pos : option QPoint)
  (time : option float) (changes times : list float) : RadialMenu :=
  mkMenu (items m) (column_widget_items m) (column_widget_rects m)
         (column_widget_rect m) (column_widget_enabled m) (activeItem m)
         (gesture m) (timer_active m) (visible m) (startPos m) (livePos m)
         pos time changes times.

Definition track_cursor (m : RadialMenu) (t : Tick) : result RadialMenu :=
  let pos := tick_pos t in
  let current_time := tick_time t in
  m1 <-
    match lastCursorPosition m with
    | Some last_pos =>
        if point_bool last_pos && gesture m then
          time_change <- match lastTime m with
                         | Some t0 => Ok (current_time - t0)%float
                         | None => Raise TypeError
                         end ;;
          let change := math_hypot (px last_pos - px pos) (py last_pos - py pos) in
          ' (changes, times) <-
            (if (length (cursorChange m) <? samples)%nat
             then Ok (cursorChange m ++ [change], timeChange m ++ [time_change])
             else if (length (timeChange m) <? samples)%nat
                  then Raise IndexError
                  else Ok (shift_in (cursorChange m) change,
                           shift_in (timeChange m) time_change)) ;;
          let m1 := with_tracking m (lastCursorPosition m) (lastTime m)
                                  changes times in
          let cursor_speed := mean changes in
          if (samples - 1 <? length changes)%nat then
            if (cursor_speed <? cursor_speed_tolerance)%float then
              m2 <- updateWidget (with_gesture m1 false) (tick_live t) ;;
              Ok (with_timer m2 false)
            else Ok m1
          else Ok m1
        else Ok m
    | None => Ok m
    end ;;
  Ok (with_tracking m1 (Some pos) (Some current_time)
                    (cursorChange m1) (timeChange m1)).

(** The ticks of a session, in order. *)
Fixpoint run_ticks (m : RadialMenu) (ts : list Tick) : result RadialMenu :=
  match ts with
  | [] => Ok m
  | t :: rest => m' <- track_cursor m t ;; run_ticks m' rest
  end.
End Menu.

(** ** Properties of slice assignments *)

Definition all_slices : list Z :=
  [0; 1; 2; 3; 4; 5; 6; 7; 8; 9; 10; 11; 12; 13; 14; 15].

Definition in_range (x : Z) : Prop := 0 <= x < 16.

(** Every slice is in exactly one of the sets, exactly once. *)
Definition partition16 (sets : list (list Z)) : Prop :=
  Permutation (concat sets) all_slices.

(** [len] consecutive slices from [start], around the pie. *)
Definition arc (start : Z) (len : nat) : list Z :=
  map (fun k => (start + Z.of_nat k) mod 16) (seq 0 len).

Definition contiguous16 (sl : list Z) : Prop :=
  exists start, Permutation sl (arc start (length sl)).

Definition is_radial (item : RadialMenuItem) : bool :=
  match position item with
  | Some _ => true
  | None => false
  end.

Definition radial_item (p : Position.t) : RadialMenuItem :=
  mkItem (Some p) (mkQRect 0 0 0 0) [] None.

Definition column_item : RadialMenuItem :=
  mkItem None (mkQRect 0 0 0 0) [] None.

(** What one item's turn does to [slices_used] and to its own slices: both
    are extended by the same fresh slices, each the slice before [slices[0]]
    or the slice after [slices[-1]], the latter ending the list. *)
Definition turn (used sl used' sl' : list Z) : Prop :=
  exists ext,
    used' = used ++ ext /\ sl' = sl ++ ext /\ NoDup ext /\
    (forall x, In x ext ->
       ~ In x used /\
       (x = pie_last (hd 0 sl) \/ (x = pie_next (last sl 0) /\ last sl' 0 = x))) /\
    In (pie_next (last sl 0)) used'.

(** A pass as a relation on the slice lists of the items. *)
Inductive pass : list Z -> list (list Z) -> list Z -> list (list Z) -> Prop :=
| pass_nil used : pass used [] used []
| pass_cons used sl rest used1 sl' used2 rest' :
    turn used sl used1 sl' ->
    pass used1 rest used2 rest' ->
    pass used (sl :: rest) used2 (sl' :: rest').

(** The invariant of the loop: slice lists are non-empty, hold slices of the
    pie that are all marked used, and every unused slice that follows a used
    one follows the last element of some list. *)
Record claim_inv (used : list Z) (sets : list (list Z)) : Prop := {
  inv_nonempty : forall sl, In sl sets -> sl <> [];
  inv_range : forall sl x, In sl sets -> In x sl -> in_range x;
  inv_used : forall sl x, In sl sets -> In x sl -> In x used;
  inv_frontier : forall s, in_range s -> ~ In s used -> In (pie_last s) used ->
                 exists sl, In sl sets /\ last sl 0 = pie_last s
}.

(** No slice is used twice and the used slices are those of the lists. *)
Definition exact (used : list Z) (sets : list (list Z)) : Prop :=
  NoDup used /\ Permutation used (concat sets).

(** ** The spec's redistribution *)

Module SpecAlgorithm.
(** Modelled from the spec's words (section 4.1): each active position
    starts at its default pair; while fewer than 16 slices are used, the
    positions are visited in registration order, and each claims
    [(m - 1) mod 16] and [(M + 1) mod 16] when unused, for the lowest member
    [m] and the highest member [M] of its current set.  Sets are lists
    without repetition. *)
Definition prev (m : Z) : Z := (m - 1) mod 16.
Definition next (M : Z) : Z := (M + 1) mod 16.

(** The numerically lowest and highest members. *)
Definition lowest (s : list Z) : Z := fold_right Z.min (hd 0 s) s.
Definition highest (s : list Z) : Z := fold_right Z.max (hd 0 s) s.
Definition numeric_ends (s : list Z) : Z * Z := (lowest s, highest s).

(** Lowest and highest read modulo 16: the two ends of the arc the set
    forms on the pie (the member the set does not precede, and the member it
    does not follow). *)
Definition arc_ends (s : list Z) : Z * Z :=
  (hd (hd 0 s) (filter (fun x => negb (mem (prev x) s)) s),
   hd (hd 0 s) (filter (fun x => negb (mem (next x) s)) s)).

Definition add (x : Z) (s : list Z) : list Z :=
  if mem x s then s else s ++ [x].

Definition claim (ends : list Z -> Z * Z) (used : list Z)
  (entry : Position.t * list Z) : list Z * (Position.t * list Z) :=
  let '(p, s) := entry in
  let '(m, M) := ends s in
  let '(s1, used1) :=
    if mem (prev m) used then (s, used) else (add (prev m) s, add (prev m) used) in
  let '(s2, used2) :=
    if mem (next M) used1 then (s1, used1)
    else (add (next M) s1, add (next M) used1) in
  (used2, (p, s2)).

Fixpoint sweep (ends : list Z -> Z * Z) (used : list Z)
  (mapping : list (Position.t * list Z))
  : list Z * list (Position.t * list Z) :=
  match mapping with
  | [] => (used, [])
  | entry :: rest =>
      let '(used1, entry') := claim ends used entry in
      let '(used2, rest') := sweep ends used1 rest in
      (used2, entry' :: rest')
  end.

Fixpoint repeat_until_full (ends : list Z -> Z * Z) (fuel : nat)
  (used : list Z) (mapping : list (Position.t * list Z))
  : option (list (Position.t * list Z)) :=
  if (length used <? 16)%nat
  then match fuel with
       | O => None
       | Datatypes.S fuel' =>
           let '(used', mapping') := sweep ends used mapping in
           repeat_until_full ends fuel' used' mapping'
       end
  else Some mapping.

Definition assignSlices_with (ends : list Z -> Z * Z) (fuel : nat)
  (activePositions : list Position.t)
  : option (list (Position.t * list Z)) :=
  let mapping := map (fun p => (p, slices_table p)) activePositions in
  let used :=
    fold_left (fun u p => fold_left (fun u x => add x u) (slices_table p) u)
              activePositions [] in
  repeat_until_full ends fuel used mapping.

Definition assignSlices : nat -> list Position.t ->
                          option (list (Position.t * list Z)) :=
  assignSlices_with numeric_ends.
End SpecAlgorithm.

(** The mapping [update_slice_membership] leaves in the items. *)
Definition assigned (its : list RadialMenuItem) : list (option Position.t * list Z) :=
  map (fun it => (position it, slices it)) its.

(** Two position-to-slices mappings agree when they list the same positions
    in the same order with the same members. *)
Definition same_mapping (code : list (option Position.t * list Z))
  (spec : list (Position.t * list Z)) : Prop :=
  Forall2 (fun c s => fst c = Some (fst s) /\
                      forall x, In x (snd c) <-> In x (snd s)) code spec.

(** ** A toolkit to run the menu on

    Rectangles contain the points from their top-left corner up to their
    width and height, null rectangles and the null point are false, the
    menu sits at the origin of its parent, the angle is always zero, and the
    callable [0] raises while the others return. *)
Definition sample_toolkit : Toolkit := {|
  contains := fun r p =>
    (rx r <=? px p) && (px p <? rx r + rw r) &&
    (ry r <=? py p) && (py p <? ry r + rh r);
  rect_bool := fun r => negb ((rw r =? 0) && (rh r =? 0));
  point_bool := fun p => negb ((px p =? 0) && (py p =? 0));
  mapFromParent := fun p => p;
  column_mapFromGlobal := fun p => p;
  math_atan2 := fun _ _ => PrimFloat.zero;
  math_degrees := fun r => r;
  radial_rect := fun it => p_rect it;
  column_item_rect := fun _ => mkQRect 0 0 0 0;
  column_rect := fun _ => mkQRect 0 0 0 0;
  call := fun f m => match f with
                     | O => Raises m
                     | _ => Returns m
                     end
|}.




(** Forty-six ticks of a cursor that moves 100 pixels to the right at every
    tick. *)
Definition striding_ticks : list Tick :=
  map (fun k => mkTick (mkQPoint (5 + 100 * Z.of_nat k) 5) 0%float
                       (mkQPoint (5 + 100 * Z.of_nat k) 5))
      (seq 0 46).

(** Equality of two lists of integers up to order, by counting. *)
Definition same_counts (l l' : list Z) : bool :=
  forallb (fun x => Nat.eqb (count_occ Z.eq_dec l x) (count_occ Z.eq_dec l' x))
          (l ++ l').

(** The offsets from [-20] to [20], and the test of [updateWidget] on every
    pair of them that lies within 20 pixels. *)
Definition dead_zone_offsets : list Z :=
  map (fun k => Z.of_nat k - 20) (seq 0 41).

Definition dead_zone_check : bool :=
  forallb (fun dx =>
    forallb (fun dy =>
      if dx * dx + dy * dy <=? 400
      then negb (20 <? math_hypot dx dy)%float
      else true) dead_zone_offsets) dead_zone_offsets.

(** The two parallel lists of the column describe the same items. *)
Definition column_consistent (m : RadialMenu) : Prop :=
  length (column_widget_rects m) = length (column_widget_items m).

(** Every tick's cursor lies at displacement [d] from the cursor of the tick
    before it ([last] is the cursor before the first tick, if any). *)
Fixpoint displaced_by (d : float) (last : option QPoint) (ticks : list Tick)
  : Prop :=
  match ticks with
  | [] => True
  | t :: rest =>
      match last with
      | Some lp => math_hypot (px lp - px (tick_pos t))
                              (py lp - py (tick_pos t)) = d
      | None => True
      end /\ displaced_by d (Some (tick_pos t)) rest
  end.

(** The buffer [track_cursor] holds once it has stored [change]. *)
Definition pushed (buf : list float) (change : float) : list float :=
  if (length buf <? samples)%nat then buf ++ [change] else shift_in buf change.

(** The test that ends gesture mode. *)
Definition settled (changes : list float) : bool :=
  (samples - 1 <? length changes)%nat &&
  (mean changes <? cursor_speed_tolerance)%float.

(** * Proofs *)

(** ** Lists of integers and the ring of slices *)

Lemma mem_In (x : Z) (l : list Z) : mem x l = true <-> In x l.
Proof.
  unfold mem. rewrite existsb_exists. split.
  - intros (y & Hy & He). apply Z.eqb_eq in He. now subst.
  - intros H. exists x. split; [assumption | apply Z.eqb_refl].
Qed.

Lemma mem_not_In (x : Z) (l : list Z) : mem x l = false <-> ~ In x l.
Proof.
  rewrite <- mem_In. destruct (mem x l); split; congruence.
Qed.

Ltac conjs := repeat match goal with |- _ /\ _ => split end.

Ltac ring16 :=
  unfold in_range, pie_next, pie_last, pie_max in *;
  repeat match goal with
         | |- context [?a =? ?b] => destruct (Z.eqb_spec a b)
         | H : context [?a =? ?b] |- _ => destruct (Z.eqb_spec a b)
         end; try lia.

Lemma pie_next_last (s : Z) : in_range s -> pie_next (pie_last s) = s.
Proof. intros. ring16. Qed.

Lemma pie_last_range (s : Z) : in_range s -> in_range (pie_last s).
Proof. intros. ring16. Qed.

Lemma pie_next_range (s : Z) : in_range s -> in_range (pie_next s).
Proof. intros. ring16. Qed.

Lemma pie_last_inj (s t : Z) :
  in_range s -> in_range t -> pie_last s = pie_last t -> s = t.
Proof. intros. ring16. Qed.

Lemma pie_last_mod (v : Z) : in_range v -> pie_last ((v + 1) mod 16) = v.
Proof.
  intros Hv. unfold in_range in Hv.
  destruct (Z.eq_dec v 15) as [-> | Hne]; [reflexivity |].
  rewrite Z.mod_small by lia. ring16.
Qed.

(** On the slices of the pie the spec's [prev] and [next] are [pie_last]
    and [pie_next]. *)
Lemma spec_steps_agree (v : Z) :
  in_range v ->
  SpecAlgorithm.prev v = pie_last v /\ SpecAlgorithm.next v = pie_next v.
Proof.
  intros Hv. unfold in_range in Hv.
  unfold SpecAlgorithm.prev, SpecAlgorithm.next. split.
  - destruct (Z.eq_dec v 0) as [-> | Hne]; [reflexivity |].
    rewrite Z.mod_small by lia. ring16.
  - destruct (Z.eq_dec v 15) as [-> | Hne]; [reflexivity |].
    rewrite Z.mod_small by lia. ring16.
Qed.

Lemma in_range_all_slices (x : Z) : in_range x <-> In x all_slices.
Proof.
  unfold in_range, all_slices. simpl. lia.
Qed.

Lemma last_default {A : Type} (l : list A) (d d' : A) :
  l <> [] -> last l d = last l d'.
Proof.
  induction l as [| a [| b l] IH]; intros H; [congruence | reflexivity |].
  change (last (b :: l) d = last (b :: l) d'). apply IH. discriminate.
Qed.

Lemma forallb_false_witness {A : Type} (f : A -> bool) (l : list A) :
  forallb f l = false -> exists x, In x l /\ f x = false.
Proof.
  induction l as [| a l IH]; simpl; [discriminate |].
  destruct (f a) eqn:Hfa; simpl.
  - intros H. destruct (IH H) as (x & Hx & Hf). exists x. auto.
  - intros _. exists a. auto.
Qed.

(** Fewer than sixteen entries leave some slice unused. *)
Lemma unused_slice (used : list Z) :
  (length used < 16)%nat -> exists t, in_range t /\ ~ In t used.
Proof.
  intros Hlen.
  destruct (forallb (fun t => mem t used) all_slices) eqn:Hall.
  - exfalso. rewrite forallb_forall in Hall.
    assert (Hincl : incl all_slices used).
    { intros t Ht. apply mem_In. auto. }
    assert (Hnd : NoDup all_slices).
    { unfold all_slices. repeat constructor; simpl; lia. }
    pose proof (NoDup_incl_length Hnd Hincl) as Hle. simpl in Hle. lia.
  - destruct (forallb_false_witness _ _ Hall) as (t & Ht & Hm).
    exists t. split; [now apply in_range_all_slices | now apply mem_not_In].
Qed.

(** Walking round the pie from a used slice to an unused one crosses a
    used slice followed by an unused one. *)
Lemma frontier_walk (used : list Z) (u : Z) (k : nat) :
  in_range u -> In u used -> ~ In ((u + Z.of_nat k) mod 16) used ->
  exists s, in_range s /\ ~ In s used /\ In (pie_last s) used.
Proof.
  intros Hu Hin. induction k as [| k IH]; intros Hk.
  - exfalso. apply Hk. unfold in_range in Hu.
    rewrite Z.add_0_r, Z.mod_small by lia. assumption.
  - set (v := (u + Z.of_nat k) mod 16).
    assert (Hv : in_range v) by (apply Z.mod_pos_bound; lia).
    assert (Hs : (u + Z.of_nat (Datatypes.S k)) mod 16 = (v + 1) mod 16).
    { unfold v. rewrite Zplus_mod_idemp_l. f_equal. lia. }
    destruct (In_dec Z.eq_dec v used) as [Hvin | Hvout].
    + exists ((v + 1) mod 16). rewrite <- Hs. split; [| split].
      * apply Z.mod_pos_bound. lia.
      * assumption.
      * rewrite Hs, pie_last_mod by assumption. assumption.
    + apply IH. assumption.
Qed.

Lemma frontier_exists (used : list Z) (u : Z) :
  in_range u -> In u used -> (length used < 16)%nat ->
  exists s, in_range s /\ ~ In s used /\ In (pie_last s) used.
Proof.
  intros Hu Hin Hlen.
  destruct (unused_slice used Hlen) as (t & Ht & Hout).
  apply (frontier_walk used u (Z.to_nat ((t - u) mod 16))); try assumption.
  rewrite Z2Nat.id by (apply Z.mod_pos_bound; lia).
  rewrite Zplus_mod_idemp_r. replace (u + (t - u)) with t by lia.
  unfold in_range in Ht. rewrite Z.mod_small by lia. assumption.
Qed.

(** ** One turn and one pass *)

Lemma claim_neighbours_turn (used : list Z) (item : RadialMenuItem) :
  slices item <> [] ->
  exists used' item',
    claim_neighbours used item = Ok (used', item') /\
    turn used (slices item) used' (slices item') /\
    position item' = position item /\
    p_rect item' = p_rect item /\
    function item' = function item.
Proof.
  intros Hne. unfold claim_neighbours.
  destruct (slices item) as [| first tl_] eqn:Hsl; [congruence |].
  rewrite (last_default (first :: tl_) first 0) by discriminate.
  set (n := pie_last first). set (l := pie_next (last (first :: tl_) 0)).
  assert (Hmk : forall ext,
             NoDup ext ->
             (forall x, In x ext ->
                ~ In x used /\
                (x = n \/ (x = l /\ last ((first :: tl_) ++ ext) 0 = x))) ->
             In l (used ++ ext) ->
             turn used (first :: tl_) (used ++ ext) ((first :: tl_) ++ ext)).
  { intros ext H1 H2 H3. exists ext. repeat (split; try assumption). }
  destruct (mem n used) eqn:Hn; simpl.
  - destruct (mem l used) eqn:Hl; simpl.
    + apply mem_In in Hl.
      eexists _, _. split; [reflexivity |]. simpl. split; [| auto].
      specialize (Hmk []). rewrite !app_nil_r in Hmk. apply Hmk.
      * constructor.
      * intros x [].
      * assumption.
    + apply mem_not_In in Hl.
      eexists _, _. split; [reflexivity |]. simpl. split; [| auto].
      apply (Hmk [l]).
      * repeat constructor. intros [].
      * intros x [<- | []]. split; [assumption | right].
        split; [reflexivity | apply last_last].
      * apply in_or_app. right. now left.
  - apply mem_not_In in Hn.
    destruct (mem l (used ++ [n])) eqn:Hl; simpl.
    + apply mem_In in Hl.
      eexists _, _. split; [reflexivity |]. simpl. split; [| auto].
      apply (Hmk [n]).
      * repeat constructor. intros [].
      * intros x [<- | []]. split; [assumption | now left].
      * assumption.
    + apply mem_not_In in Hl.
      assert (Hln : n <> l).
      { intros Heq. apply Hl. apply in_or_app. right. left. assumption. }
      assert (Hlu : ~ In l used).
      { intros H. apply Hl. apply in_or_app. now left. }
      eexists _, _. split; [reflexivity |]. simpl. split; [| auto].
      rewrite <- !app_assoc. simpl.
      apply (Hmk [n; l]).
      * constructor; [intros [H | []]; congruence |].
        constructor; [intros [] | constructor].
      * intros x [<- | [<- | []]]; (split; [assumption |]); [now left | right].
        split; [reflexivity |].
        replace ((first :: tl_) ++ [n; l]) with (((first :: tl_) ++ [n]) ++ [l])
          by (rewrite <- app_assoc; reflexivity).
        apply last_last.
      * apply in_or_app. right. right. now left.
Qed.

Lemma claim_pass_pass (items : list RadialMenuItem) :
  forall used,
    Forall (fun it => slices it <> []) items ->
    exists used' items',
      claim_pass used items = Ok (used', items') /\
      pass used (map slices items) used' (map slices items') /\
      map position items' = map position items /\
      map p_rect items' = map p_rect items /\
      map function items' = map function items.
Proof.
  induction items as [| item rest IH]; intros used Hall.
  - exists used, []. simpl. repeat split; constructor.
  - inversion Hall as [| ? ? Hitem Hrest]; subst.
    destruct (claim_neighbours_turn used item Hitem)
      as (used1 & item' & Hcn & Hturn & Hpos & Hrect & Hfun).
    destruct (IH used1 Hrest) as (used2 & rest' & Hcp & Hpass & Hp & Hr & Hf).
    exists used2, (item' :: rest'). simpl. rewrite Hcn. simpl. rewrite Hcp. simpl.
    repeat split; try (f_equal; assumption).
    econstructor; eassumption.
Qed.

Lemma turn_extends (used sl used' sl' : list Z) :
  turn used sl used' sl' -> exists ext, used' = used ++ ext.
Proof. intros (ext & H & _). eauto. Qed.

Lemma pass_extends (used used' : list Z) (sets sets' : list (list Z)) :
  pass used sets used' sets' -> exists ext, used' = used ++ ext.
Proof.
  induction 1 as [used | used sl rest used1 sl' used2 rest' Hturn _ IH].
  - exists []. now rewrite app_nil_r.
  - destruct (turn_extends _ _ _ _ Hturn) as (e1 & ->).
    destruct IH as (e2 & ->). exists (e1 ++ e2). now rewrite app_assoc.
Qed.

Lemma pass_length (used used' : list Z) (sets sets' : list (list Z)) :
  pass used sets used' sets' -> length sets' = length sets.
Proof. induction 1; simpl; congruence. Qed.

(** After a pass the slice after each list's last element is used. *)
Lemma pass_claims (used used' : list Z) (sets sets' : list (list Z)) :
  pass used sets used' sets' ->
  forall sl, In sl sets -> In (pie_next (last sl 0)) used'.
Proof.
  induction 1 as [used | used sl rest used1 sl' used2 rest' Hturn Hpass IH];
    intros s Hs; [contradiction |].
  destruct Hs as [<- | Hs]; [| now apply IH].
  destruct Hturn as (ext & -> & _ & _ & _ & Hin).
  destruct (pass_extends _ _ _ _ Hpass) as (e2 & ->).
  apply in_or_app. now left.
Qed.

Lemma turn_inv (used used1 sl sl' : list Z) (pre post : list (list Z)) :
  claim_inv used (pre ++ sl :: post) ->
  turn used sl used1 sl' ->
  claim_inv used1 (pre ++ sl' :: post).
Proof.
  intros [Hne Hrange Hused Hfront] (ext & -> & -> & Hnd & Hext & Hnext).
  assert (Hsl : In sl (pre ++ sl :: post)) by (apply in_elt).
  assert (Hslne : sl <> []) by (apply Hne; assumption).
  assert (Hsplit : forall s, In s (pre ++ (sl ++ ext) :: post) ->
                             s = sl ++ ext \/ In s (pre ++ sl :: post)).
  { intros s Hs. apply in_app_or in Hs. destruct Hs as [Hs | [<- | Hs]].
    - right. apply in_or_app. now left.
    - now left.
    - right. apply in_or_app. right. now right. }
  assert (Hhd : In (hd 0 sl) sl).
  { destruct sl; [congruence | now left]. }
  assert (Hlast : In (last sl 0) sl).
  { destruct (exists_last Hslne) as (l0 & a & ->). rewrite last_last.
    apply in_or_app. right. now left. }
  assert (Hextrange : forall x, In x ext -> in_range x).
  { intros x Hx. destruct (Hext x Hx) as (_ & [-> | [-> _]]).
    - apply pie_last_range. eapply Hrange; eassumption.
    - apply pie_next_range. eapply Hrange; eassumption. }
  constructor.
  - intros s Hs. destruct (Hsplit s Hs) as [-> | Hs']; [| now apply Hne].
    destruct sl; [congruence | discriminate].
  - intros s x Hs Hx. destruct (Hsplit s Hs) as [-> | Hs'].
    + apply in_app_or in Hx. destruct Hx as [Hx | Hx]; [| now apply Hextrange].
      eapply Hrange; eassumption.
    + eapply Hrange; eassumption.
  - intros s x Hs Hx. apply in_or_app. destruct (Hsplit s Hs) as [-> | Hs'].
    + apply in_app_or in Hx. destruct Hx as [Hx | Hx]; [left | now right].
      eapply Hused; eassumption.
    + left. eapply Hused; eassumption.
  - intros s Hs Hout Hprev.
    assert (Hout' : ~ In s used).
    { intros H. apply Hout. apply in_or_app. now left. }
    apply in_app_or in Hprev. destruct Hprev as [Hprev | Hprev].
    + destruct (Hfront s Hs Hout' Hprev) as (w & Hw & Hwl).
      apply in_app_or in Hw. destruct Hw as [Hw | [<- | Hw]].
      * exists w. split; [apply in_or_app; now left | assumption].
      * exfalso. apply Hout. rewrite Hwl, pie_next_last in Hnext; assumption.
      * exists w. split; [apply in_or_app; right; now right | assumption].
    + destruct (Hext _ Hprev) as (_ & [Heq | [_ Heq]]).
      * exfalso. apply Hout'. apply pie_last_inj in Heq;
          [| assumption | eapply Hrange; eassumption].
        subst s. eapply Hused; eassumption.
      * exists (sl ++ ext). split; [apply in_elt | assumption].
Qed.

Lemma pass_inv (used used' : list Z) (sets sets' : list (list Z)) :
  pass used sets used' sets' ->
  forall pre, claim_inv used (pre ++ sets) -> claim_inv used' (pre ++ sets').
Proof.
  induction 1 as [used | used sl rest used1 sl' used2 rest' Hturn _ IH];
    intros pre Hinv; [assumption |].
  pose proof (turn_inv _ _ _ _ _ _ Hinv Hturn) as H1.
  change (pre ++ sl' :: rest) with (pre ++ [sl'] ++ rest) in H1.
  rewrite app_assoc in H1. apply IH in H1.
  rewrite <- app_assoc in H1. exact H1.
Qed.

Lemma turn_exact (used used1 sl sl' : list Z) (pre post : list (list Z)) :
  exact used (pre ++ sl :: post) ->
  turn used sl used1 sl' ->
  exact used1 (pre ++ sl' :: post).
Proof.
  intros [Hnd Hperm] (ext & -> & -> & Hnde & Hext & _). split.
  - apply NoDup_app; try assumption.
    intros x Hx Hx'. destruct (Hext x Hx') as (Hout & _). contradiction.
  - rewrite concat_app in *. simpl in *.
    rewrite Hperm. rewrite <- !app_assoc.
    apply Permutation_app_head. apply Permutation_app_head.
    apply Permutation_app_comm.
Qed.

Lemma pass_exact (used used' : list Z) (sets sets' : list (list Z)) :
  pass used sets used' sets' ->
  forall pre, exact used (pre ++ sets) -> exact used' (pre ++ sets').
Proof.
  induction 1 as [used | used sl rest used1 sl' used2 rest' Hturn _ IH];
    intros pre Hex; [assumption |].
  pose proof (turn_exact _ _ _ _ _ _ Hex Hturn) as H1.
  change (pre ++ sl' :: rest) with (pre ++ [sl'] ++ rest) in H1.
  rewrite app_assoc in H1. apply IH in H1.
  rewrite <- app_assoc in H1. exact H1.
Qed.

(** A pass that starts below sixteen used slices uses at least one more. *)
Lemma pass_progress (used used' : list Z) (sets sets' : list (list Z)) :
  claim_inv used sets -> sets <> [] -> (length used < 16)%nat ->
  pass used sets used' sets' ->
  (length used < length used')%nat.
Proof.
  intros Hinv Hne Hlen Hpass.
  destruct sets as [| sl0 rest]; [congruence |].
  assert (Hsl0 : In sl0 (sl0 :: rest)) by now left.
  destruct sl0 as [| x0 t0]; [exfalso; eapply (inv_nonempty _ _ Hinv); eauto |].
  assert (Hx0 : In x0 (x0 :: t0)) by now left.
  destruct (frontier_exists used x0) as (s & Hs & Hout & Hprev);
    [eapply (inv_range _ _ Hinv); eauto
    | eapply (inv_used _ _ Hinv); eauto | assumption |].
  destruct (inv_frontier _ _ Hinv s Hs Hout Hprev) as (w & Hw & Hwl).
  pose proof (pass_claims _ _ _ _ Hpass w Hw) as Hin.
  rewrite Hwl, pie_next_last in Hin by assumption.
  destruct (pass_extends _ _ _ _ Hpass) as (ext & ->).
  apply in_app_or in Hin. destruct Hin as [Hin | Hin]; [contradiction |].
  rewrite length_app. destruct ext; [contradiction | simpl; lia].
Qed.

(** ** The default slices *)

Lemma slices_table_nonempty (p : Position.t) : slices_table p <> [].
Proof. destruct p; discriminate. Qed.

Lemma slices_table_range (p : Position.t) (x : Z) :
  In x (slices_table p) -> in_range x.
Proof. unfold in_range. destruct p; simpl; lia. Qed.

Lemma slices_table_owner (p q : Position.t) (x : Z) :
  In x (slices_table p) -> In x (slices_table q) -> p = q.
Proof. destruct p, q; simpl; intros; try reflexivity; exfalso; lia. Qed.

(** A default slice is the last of its pair or is followed by it. *)
Lemma slices_table_ends (p : Position.t) (x : Z) :
  In x (slices_table p) ->
  x = last (slices_table p) 0 \/ In (pie_next x) (slices_table p).
Proof.
  destruct p; simpl; intros [<- | [<- | []]]; auto.
Qed.

Lemma slices_table_NoDup (p : Position.t) : NoDup (slices_table p).
Proof.
  destruct p; simpl; repeat constructor; simpl; lia.
Qed.

Lemma defaults_NoDup (ps : list Position.t) :
  NoDup ps -> NoDup (concat (map slices_table ps)).
Proof.
  induction 1 as [| p ps Hp Hnd IH]; simpl; [constructor |].
  apply NoDup_app; [apply slices_table_NoDup | assumption |].
  intros x Hx Hx'. apply in_concat in Hx'. destruct Hx' as (sl & Hsl & Hin).
  apply in_map_iff in Hsl. destruct Hsl as (q & <- & Hq).
  rewrite (slices_table_owner p q x Hx Hin) in Hp. contradiction.
Qed.

Lemma defaults_inv (ps : list Position.t) :
  claim_inv (concat (map slices_table ps)) (map slices_table ps).
Proof.
  constructor.
  - intros sl Hsl. apply in_map_iff in Hsl. destruct Hsl as (p & <- & _).
    apply slices_table_nonempty.
  - intros sl x Hsl Hx. apply in_map_iff in Hsl. destruct Hsl as (p & <- & _).
    eapply slices_table_range; eassumption.
  - intros sl x Hsl Hx. apply in_concat. eauto.
  - intros s Hs Hout Hprev. apply in_concat in Hprev.
    destruct Hprev as (sl & Hsl & Hin). exists sl. split; [assumption |].
    apply in_map_iff in Hsl. destruct Hsl as (p & <- & Hp).
    destruct (slices_table_ends p _ Hin) as [Heq | Hnext]; [now symmetry |].
    exfalso. apply Hout. rewrite pie_next_last in Hnext by assumption.
    apply in_concat. exists (slices_table p). split; [| assumption].
    apply in_map. assumption.
Qed.

Lemma reset_slices_radial (items : list RadialMenuItem) :
  forall ps,
    map position items = map Some ps ->
    exists items',
      reset_slices items = Ok (concat (map slices_table ps), items') /\
      map slices items' = map slices_table ps /\
      map position items' = map position items /\
      map p_rect items' = map p_rect items /\
      map function items' = map function items.
Proof.
  induction items as [| item rest IH]; intros [| p ps] Hpos; try discriminate.
  - exists []. repeat split.
  - simpl in Hpos. injection Hpos as Hp Hrest.
    destruct (IH ps Hrest) as (rest' & Hreset & Hsl & Hps & Hr & Hf).
    exists (set_slices item (slices_table p) :: rest').
    simpl. rewrite Hp. simpl. rewrite Hreset. simpl.
    repeat split; f_equal; assumption.
Qed.

(** A column item anywhere in the list makes the first loop raise. *)
Lemma reset_slices_column (items : list RadialMenuItem) :
  (exists item, In item items /\ position item = None) ->
  reset_slices items = Raise KeyError.
Proof.
  induction items as [| item rest IH]; intros (c & Hin & Hc);
    [contradiction |].
  simpl. destruct (position item) as [p |] eqn:Hp; simpl; [| reflexivity].
  destruct Hin as [-> | Hin]; [congruence |].
  rewrite IH by eauto. reflexivity.
Qed.

Lemma reset_slices_ok_radial (items : list RadialMenuItem) :
  forall used items',
    reset_slices items = Ok (used, items') ->
    exists ps, map position items = map Some ps.
Proof.
  induction items as [| item rest IH]; intros used items' H.
  - exists []. reflexivity.
  - simpl in H. destruct (position item) as [p |] eqn:Hp; simpl in H;
      [| discriminate].
    destruct (reset_slices rest) as [[u r] | e |] eqn:Hr; simpl in H;
      try discriminate.
    destruct (IH _ _ eq_refl) as (ps & Hps).
    exists (p :: ps). simpl. now rewrite Hp, Hps.
Qed.

(** ** The loop *)

Lemma claim_loop_terminates (fuel : nat) :
  forall used items,
    claim_inv used (map slices items) -> items <> [] ->
    (16 - length used <= fuel)%nat ->
    exists used' items',
      claim_loop fuel used items = Ok (used', items') /\
      (16 <= length used')%nat /\
      claim_inv used' (map slices items') /\
      (exact used (map slices items) -> exact used' (map slices items')) /\
      map position items' = map position items /\
      map p_rect items' = map p_rect items /\
      map function items' = map function items.
Proof.
  induction fuel as [| fuel IH]; intros used items Hinv Hne Hfuel.
  - exists used, items. simpl.
    destruct (Z.ltb_spec (Z.of_nat (length used)) 16); [lia |].
    conjs; try assumption; try reflexivity; try lia. auto.
  - simpl. destruct (Z.ltb_spec (Z.of_nat (length used)) 16) as [Hlt | Hge].
    + assert (Hall : Forall (fun it => slices it <> []) items).
      { apply Forall_forall. intros it Hit.
        apply (inv_nonempty _ _ Hinv). now apply in_map. }
      destruct (claim_pass_pass items used Hall)
        as (used1 & items1 & Hcp & Hpass & Hp & Hr & Hf).
      rewrite Hcp. simpl.
      assert (Hinv1 : claim_inv used1 (map slices items1)).
      { apply (pass_inv _ _ _ _ Hpass []). assumption. }
      assert (Hprog : (length used < length used1)%nat).
      { eapply pass_progress; try eassumption; [| lia].
        destruct items; [congruence | discriminate]. }
      assert (Hne1 : items1 <> []).
      { intros ->. destruct items; [congruence | discriminate]. }
      destruct (IH used1 items1 Hinv1 Hne1) as
        (used' & items' & Hloop & Hlen & Hinv' & Hex & Hp' & Hr' & Hf');
        [lia |].
      exists used', items'. conjs; try assumption; try congruence.
      intros H. apply Hex. apply (pass_exact _ _ _ _ Hpass []). assumption.
    + exists used, items. conjs; try assumption; try reflexivity; try lia. auto.
Qed.

(** With no item at all the loop never reaches its exit test. *)
Lemma claim_loop_no_items (fuel : nat) : claim_loop fuel [] [] = OutOfFuel.
Proof. induction fuel as [| fuel IH]; [reflexivity | exact IH]. Qed.

(** More passes than needed change nothing. *)
Lemma claim_loop_fuel (fuel : nat) :
  forall used items r extra,
    claim_loop fuel used items = Ok r ->
    claim_loop (fuel + extra) used items = Ok r.
Proof.
  induction fuel as [| fuel IH]; intros used items r extra; simpl.
  - destruct (Z.of_nat (length used) <? 16) eqn:Hlt; [discriminate |].
    intros H. destruct extra; simpl; rewrite Hlt; assumption.
  - destruct (Z.of_nat (length used) <? 16) eqn:Hlt; [| auto].
    destruct (claim_pass used items) as [[u i] | e |]; simpl;
      try discriminate.
    apply IH.
Qed.

Lemma full_used (used : list Z) :
  NoDup used -> (forall x, In x used -> in_range x) ->
  (16 <= length used)%nat -> Permutation used all_slices.
Proof.
  intros Hnd Hrange Hlen. apply NoDup_Permutation_bis; try assumption.
  intros x Hx. apply in_range_all_slices. auto.
Qed.

(** The result of [update_slice_membership] on radial items. *)
Record assignment (ps : list Position.t) (items items' : list RadialMenuItem)
  (used' : list Z) : Prop := {
  asg_full : (16 <= length used')%nat;
  asg_inv : claim_inv used' (map slices items');
  asg_exact : NoDup ps -> exact used' (map slices items');
  asg_position : map position items' = map position items;
  asg_rect : map p_rect items' = map p_rect items;
  asg_function : map function items' = map function items
}.

Lemma update_slice_membership_fuel_total (fuel : nat)
  (items : list RadialMenuItem) (ps : list Position.t) :
  map position items = map Some ps -> ps <> [] -> (16 <= fuel)%nat ->
  exists used' items',
    update_slice_membership_fuel fuel items = Ok (used', items') /\
    assignment ps items items' used'.
Proof.
  intros Hpos Hne Hfuel. unfold update_slice_membership_fuel.
  destruct (reset_slices_radial items ps Hpos)
    as (items0 & Hreset & Hsl & Hp & Hr & Hf).
  rewrite Hreset. simpl.
  assert (Hinv : claim_inv (concat (map slices_table ps)) (map slices items0)).
  { rewrite Hsl. apply defaults_inv. }
  assert (Hne0 : items0 <> []).
  { intros ->. destruct ps; [congruence | discriminate]. }
  destruct (claim_loop_terminates fuel _ _ Hinv Hne0)
    as (used' & items' & Hloop & Hlen & Hinv' & Hex & Hp' & Hr' & Hf'); [lia |].
  exists used', items'. split; [assumption |].
  constructor; try assumption; try congruence.
  intros Hnd. apply Hex. rewrite Hsl. split; [now apply defaults_NoDup |].
  apply Permutation_refl.
Qed.

Lemma update_slice_membership_total (items : list RadialMenuItem)
  (ps : list Position.t) :
  map position items = map Some ps -> ps <> [] ->
  exists used' items',
    update_slice_membership items = Ok items' /\
    assignment ps items items' used'.
Proof.
  intros Hpos Hne.
  destruct (update_slice_membership_fuel_total 16 items ps Hpos Hne)
    as (used' & items' & Hup & Hasg); [lia |].
  exists used', items'. unfold update_slice_membership. rewrite Hup. auto.
Qed.

Lemma assignment_partition (ps : list Position.t)
  (items items' : list RadialMenuItem) (used' : list Z) :
  assignment ps items items' used' -> NoDup ps ->
  partition16 (map slices items').
Proof.
  intros Hasg Hnd. destruct (asg_exact _ _ _ _ Hasg Hnd) as [Hnd' Hperm].
  unfold partition16. rewrite <- Hperm. apply full_used.
  - assumption.
  - intros x Hx. rewrite Hperm in Hx. apply in_concat in Hx.
    destruct Hx as (sl & Hsl & Hin).
    eapply (inv_range _ _ (asg_inv _ _ _ _ Hasg)); eassumption.
  - exact (asg_full _ _ _ _ Hasg).
Qed.

Lemma same_counts_Permutation (l l' : list Z) :
  same_counts l l' = true -> Permutation l l'.
Proof.
  unfold same_counts. rewrite forallb_forall. intros H.
  apply (Permutation_count_occ Z.eq_dec). intros x.
  destruct (In_dec Z.eq_dec x (l ++ l')) as [Hin | Hout].
  - apply Nat.eqb_eq. now apply H.
  - rewrite (proj1 (count_occ_not_In Z.eq_dec l x)),
            (proj1 (count_occ_not_In Z.eq_dec l' x)); [reflexivity | |];
      intros Hx; apply Hout; apply in_or_app; auto.
Qed.

(** ** Registration *)

Lemma update_last_app {A : Type} (f : A -> A) (l : list A) (a : A) :
  update_last f (l ++ [a]) = l ++ [f a].
Proof.
  induction l as [| b l IH]; [reflexivity |].
  simpl. rewrite IH. destruct (l ++ [a]) eqn:H; [| reflexivity].
  destruct l; discriminate.
Qed.

Lemma update_last_map {A B : Type} (f : A -> A) (g : A -> B) (l : list A) :
  (forall a, g (f a) = g a) -> map g (update_last f l) = map g l.
Proof.
  intros Hfg. induction l as [| a [| b l] IH]; [reflexivity | |].
  - simpl. now rewrite Hfg.
  - change (g a :: map g (update_last f (b :: l)) = g a :: map g (b :: l)).
    now rewrite IH.
Qed.

Lemma filter_radial_all (its : list RadialMenuItem) (ps : list Position.t) :
  map position its = map Some ps -> filter is_radial its = its.
Proof.
  revert ps. induction its as [| it its IH]; intros [| p ps] H;
    try discriminate; [reflexivity |].
  simpl in H. injection H as Hp Hrest. simpl. unfold is_radial at 1.
  rewrite Hp. f_equal. eauto.
Qed.

(** The items of [m] carry the slices some run of
    [update_slice_membership] gave to items at the positions [ps]. *)
Definition assigned_state (m : RadialMenu) (ps : list Position.t) : Prop :=
  map position (items m) = map Some ps /\
  exists before after used,
    assignment ps before after used /\
    map slices (items m) = map slices after.

Section Registration.
Context {tk : Toolkit}.

Lemma add_items_app (its its' : list RadialMenuItem) :
  forall m,
    add_items m (its ++ its') = (m' <- add_items m its ;; add_items m' its').
Proof.
  induction its as [| it its IH]; intros m; [reflexivity |].
  simpl. destruct (add_item m it); simpl; auto.
Qed.

Lemma add_item_radial (m : RadialMenu) (item : RadialMenuItem)
  (ps : list Position.t) (p : Position.t) :
  map position (items m) = map Some ps -> position item = Some p ->
  exists m',
    add_item m item = Ok m' /\ assigned_state m' (ps ++ [p]).
Proof.
  intros Hps Hp. unfold add_item, add_radial_item. rewrite Hp. simpl.
  assert (Hpos : map position (items m ++ [item]) = map Some (ps ++ [p])).
  { rewrite !map_app. simpl. now rewrite Hps, Hp. }
  destruct (update_slice_membership_total _ _ Hpos) as (used & its & Hup & Hasg).
  { destruct ps; discriminate. }
  rewrite Hup. simpl. eexists. split; [reflexivity |]. split; simpl.
  - rewrite update_last_map by reflexivity.
    rewrite (asg_position _ _ _ _ Hasg). assumption.
  - exists (items m ++ [item]), its, used. split; [assumption |].
    apply update_last_map. reflexivity.
Qed.

Lemma add_items_radial (rs : list RadialMenuItem) :
  forall m ps0 ps,
    map position (items m) = map Some ps0 ->
    map position rs = map Some ps -> rs <> [] ->
    exists m', add_items m rs = Ok m' /\ assigned_state m' (ps0 ++ ps).
Proof.
  induction rs as [| r rest IH]; intros m ps0 ps H0 Hps Hne; [congruence |].
  destruct ps as [| p ps]; [discriminate |].
  simpl in Hps. injection Hps as Hp Hrest.
  destruct (add_item_radial m r ps0 p H0 Hp) as (m1 & Hadd & Hst).
  simpl. rewrite Hadd. simpl.
  destruct rest as [| r' rest'].
  - destruct ps; [| discriminate]. exists m1. split; [reflexivity | assumption].
  - destruct (IH m1 (ps0 ++ [p]) ps (proj1 Hst) Hrest) as (m' & Hm' & Hst');
      [discriminate |].
    exists m'. split; [assumption |].
    rewrite <- app_assoc in Hst'. exact Hst'.
Qed.

Lemma add_items_column (cs : list RadialMenuItem) :
  forall m,
    Forall (fun c => position c = None) cs ->
    exists m',
      add_items m cs = Ok m' /\
      filter is_radial (items m') = filter is_radial (items m).
Proof.
  induction cs as [| c cs IH]; intros m Hall.
  - exists m. split; reflexivity.
  - inversion Hall as [| ? ? Hc Hcs]; subst.
    simpl. unfold add_item. rewrite Hc. unfold add_column_item. simpl.
    match goal with
    | |- exists m', add_items ?m1 cs = _ /\ _ =>
        destruct (IH m1 Hcs) as (m' & Hm' & Hf)
    end.
    exists m'. split; [assumption |]. rewrite Hf. simpl.
    rewrite update_last_app, filter_app. simpl.
    unfold is_radial at 2. simpl. rewrite Hc. apply app_nil_r.
Qed.
End Registration.

(** ** Termination and the shape of the assignment *)

Lemma update_slice_membership_fuel_indep (fuel : nat)
  (items : list RadialMenuItem) (r : list Z * list RadialMenuItem) :
  (16 <= fuel)%nat ->
  update_slice_membership_fuel 16 items = Ok r ->
  update_slice_membership_fuel fuel items = Ok r.
Proof.
  intros Hfuel. unfold update_slice_membership_fuel.
  destruct (reset_slices items) as [[u i] | e |]; simpl; try discriminate.
  intros H. replace fuel with (16 + (fuel - 16))%nat by lia.
  now apply claim_loop_fuel.
Qed.

(** C4, as stated, fails on a repeated position: with two items registered
    at N the loop exits on sixteen entries of [slices_used] that hold 11 and
    12 twice, and the slices 8 and 9 are used by no item. *)
Lemma repeated_position_leaves_slices_unused :
  exists used' items',
    update_slice_membership_fuel 16
      [radial_item Position.N; radial_item Position.N] = Ok (used', items') /\
    update_slice_membership
      [radial_item Position.N; radial_item Position.N] = Ok items' /\
    (16 <= length used')%nat /\
    in_range 8 /\ ~ In 8 used' /\ in_range 9 /\ ~ In 9 used' /\
    ~ (forall s, in_range s -> In s used').
Proof.
  eexists _, _. split; [vm_compute; reflexivity |].
  split; [vm_compute; reflexivity |].
  conjs.
  - simpl. lia.
  - unfold in_range. lia.
  - simpl. intros H. decompose [or] H; try discriminate; assumption.
  - unfold in_range. lia.
  - simpl. intros H. decompose [or] H; try discriminate; assumption.
  - intros H. specialize (H 8). simpl in H.
    assert (H8 : in_range 8) by (unfold in_range; lia).
    specialize (H H8). decompose [or] H; try discriminate; assumption.
Qed.

(** C4, amended: for every non-empty list of registered radial positions the
    redistribution loop terminates: sixteen passes, or any larger budget,
    reach the exit test with at least sixteen entries in [slices_used]; when
    the positions are pairwise distinct every one of the 16 slices is used;
    and a single position ends up with all 16 slices. *)
Theorem slice_redistribution_terminates (items : list RadialMenuItem)
  (ps : list Position.t) (fuel : nat) :
  map position items = map Some ps -> ps <> [] -> (16 <= fuel)%nat ->
  exists used' items',
    update_slice_membership_fuel fuel items = Ok (used', items') /\
    update_slice_membership items = Ok items' /\
    (16 <= length used')%nat /\
    (NoDup ps -> forall s, in_range s -> In s used') /\
    (forall p, ps = [p] ->
       exists sl, map slices items' = [sl] /\ Permutation sl all_slices).
Proof.
  intros Hpos Hne Hfuel.
  destruct (update_slice_membership_fuel_total 16 items ps Hpos Hne)
    as (used' & items' & Hup & Hasg); [lia |].
  exists used', items'. conjs.
  - now apply update_slice_membership_fuel_indep.
  - unfold update_slice_membership. now rewrite Hup.
  - exact (asg_full _ _ _ _ Hasg).
  - intros Hnd s Hs.
    pose proof (assignment_partition _ _ _ _ Hasg Hnd) as Hpart.
    destruct (asg_exact _ _ _ _ Hasg Hnd) as [_ Hperm].
    apply (Permutation_in s (Permutation_sym Hperm)).
    apply (Permutation_in s (Permutation_sym Hpart)).
    now apply in_range_all_slices.
  - intros p ->.
    assert (Hnd : NoDup [p]) by (repeat constructor; intros []).
    pose proof (assignment_partition _ _ _ _ Hasg Hnd) as Hpart.
    pose proof (asg_position _ _ _ _ Hasg) as Hp. rewrite Hpos in Hp.
    destruct items' as [| it [| it' rest]]; try discriminate.
    exists (slices it). split; [reflexivity |].
    unfold partition16 in Hpart. simpl in Hpart.
    now rewrite app_nil_r in Hpart.
Qed.

Lemma slice_redistribution_terminates_witness :
  exists used' items',
    update_slice_membership_fuel 16 [radial_item Position.E] = Ok (used', items') /\
    update_slice_membership [radial_item Position.E] = Ok items' /\
    (16 <= length used')%nat /\
    (NoDup [Position.E] -> forall s, in_range s -> In s used') /\
    (forall p, [Position.E] = [p] ->
       exists sl, map slices items' = [sl] /\ Permutation sl all_slices).
Proof.
  apply (slice_redistribution_terminates
           [radial_item Position.E] [Position.E] 16).
  - reflexivity.
  - discriminate.
  - apply le_n.
Defined.

(** C3: two radial items registered at opposite positions end up with
    exactly 8 distinct slices each, and each item's slices are contiguous
    modulo 16. *)
Theorem opposite_positions_split_evenly (tk : Toolkit)
  (a b : RadialMenuItem) (p : Position.t) :
  position a = Some p -> position b = Some (Position.opposite p) ->
  exists m a' b',
    add_items init [a; b] = Ok m /\ items m = [a'; b'] /\
    position a' = Some p /\ position b' = Some (Position.opposite p) /\
    length (slices a') = 8%nat /\ length (slices b') = 8%nat /\
    NoDup (slices a') /\ NoDup (slices b') /\
    contiguous16 (slices a') /\ contiguous16 (slices b').
Proof.
  intros Ha Hb. destruct a as [pa ra sa fa], b as [pb rb sb fb].
  simpl in Ha, Hb. subst pa pb.
  destruct p; eexists _, _, _;
    (split; [vm_compute; reflexivity |]);
    (split; [reflexivity |]); simpl;
    conjs; try reflexivity;
    try (repeat constructor; simpl; lia);
    match goal with
    | |- contiguous16 (?x :: ?l) =>
        exists (pie_last x); apply same_counts_Permutation;
        vm_compute; reflexivity
    end.
Qed.

Lemma opposite_positions_split_evenly_witness :
  exists m a' b',
    @add_items sample_toolkit init
      [radial_item Position.N; radial_item Position.S] = Ok m /\
    items m = [a'; b'] /\
    position a' = Some Position.N /\ position b' = Some Position.S /\
    length (slices a') = 8%nat /\ length (slices b') = 8%nat /\
    NoDup (slices a') /\ NoDup (slices b') /\
    contiguous16 (slices a') /\ contiguous16 (slices b').
Proof.
  apply (opposite_positions_split_evenly sample_toolkit
           (radial_item Position.N) (radial_item Position.S) Position.N);
    reflexivity.
Defined.

(** ** Registration sequences *)

(** C1, as stated, fails: two items registered at the same position both keep
    the default pair of that position, and slices 8 and 9 are given to
    neither. *)
Lemma duplicate_position_no_partition :
  exists m,
    @add_items sample_toolkit init
      [radial_item Position.N; radial_item Position.N] = Ok m /\
    filter is_radial (items m) <> [] /\
    ~ partition16 (map slices (filter is_radial (items m))).
Proof.
  eexists. split; [vm_compute; reflexivity |]. split; [discriminate |].
  unfold partition16. simpl. intros H.
  apply Permutation_sym in H. apply (Permutation_in 8) in H.
  - simpl in H. lia.
  - unfold all_slices. simpl. lia.
Qed.

(** C1, amended: for every sequence of registrations made of radial items at
    pairwise distinct positions (at least one), followed by any number of
    column items, every registration succeeds and the slices of the radial
    items form a partition of the 16 slices. *)
Theorem registration_partitions_slices (tk : Toolkit)
  (rs cs : list RadialMenuItem) (ps : list Position.t) :
  map position rs = map Some ps -> NoDup ps -> ps <> [] ->
  Forall (fun c => position c = None) cs ->
  exists m,
    add_items init (rs ++ cs) = Ok m /\
    map position (filter is_radial (items m)) = map Some ps /\
    partition16 (map slices (filter is_radial (items m))).
Proof.
  intros Hps Hnd Hne Hcs.
  assert (Hrs : rs <> []) by (intros ->; destruct ps; [congruence | discriminate]).
  destruct (add_items_radial rs init [] ps eq_refl Hps Hrs)
    as (m1 & Hm1 & Hpos & before & after & used & Hasg & Hsl).
  destruct (add_items_column cs m1 Hcs) as (m & Hm & Hf).
  exists m. rewrite add_items_app, Hm1. simpl. split; [assumption |].
  rewrite Hf, (filter_radial_all _ _ Hpos). split; [assumption |].
  rewrite Hsl. eapply assignment_partition; eassumption.
Qed.

Lemma registration_partitions_slices_witness :
  exists m,
    @add_items sample_toolkit init
      ([radial_item Position.N; radial_item Position.E] ++ [column_item]) = Ok m /\
    map position (filter is_radial (items m)) =
      map Some [Position.N; Position.E] /\
    partition16 (map slices (filter is_radial (items m))).
Proof.
  apply (registration_partitions_slices sample_toolkit
           [radial_item Position.N; radial_item Position.E] [column_item]
           [Position.N; Position.E]).
  - reflexivity.
  - repeat constructor; simpl; intuition discriminate.
  - discriminate.
  - repeat constructor.
Defined.

(** C10: slice recomputation looks up the position of every registered
    item; once a column item is registered, registering a radial item raises
    [KeyError], and slice recomputation returns normally only when every
    item has a compass position. *)
Theorem radial_after_column_raises (tk : Toolkit) (m : RadialMenu)
  (c item : RadialMenuItem) (p : Position.t) :
  In c (items m) -> position c = None -> position item = Some p ->
  add_item m item = Raise KeyError /\
  (forall its its',
     update_slice_membership its = Ok its' ->
     forall it, In it its -> position it <> None).
Proof.
  intros Hin Hc Hp. split.
  - unfold add_item, add_radial_item. rewrite Hp. simpl.
    unfold update_slice_membership, update_slice_membership_fuel.
    rewrite reset_slices_column; [reflexivity |].
    exists c. split; [apply in_or_app; now left | assumption].
  - intros its its' Hup it Hit Hnone.
    unfold update_slice_membership, update_slice_membership_fuel in Hup.
    rewrite reset_slices_column in Hup by eauto. discriminate.
Qed.

Lemma radial_after_column_raises_witness :
  @add_item sample_toolkit
     (mkMenu [column_item] [column_item] [mkQRect 0 0 0 0]
             (Some (mkQRect 0 0 0 0)) true None true false false
             (mkQPoint 0 0) (mkQPoint 0 0) None None [] [])
     (radial_item Position.N) = Raise KeyError /\
  (forall its its',
     update_slice_membership its = Ok its' ->
     forall it, In it its -> position it <> None).
Proof.
  apply (radial_after_column_raises sample_toolkit _ column_item
           (radial_item Position.N) Position.N).
  - left. reflexivity.
  - reflexivity.
  - reflexivity.
Defined.

(** C2: at the registrations N then S the code and the spec's algorithm
    both finish and disagree: the code gives N the slices 10 to 15, 0 and 1
    and S the slices 2 to 9, the spec's algorithm gives N the slices 8 to 15
    and S the slices 0 to 7, whether lowest and highest are read numerically
    or as the ends of the arc. *)
Theorem redistribution_differs_from_spec :
  exists its mapping,
    update_slice_membership (map radial_item [Position.N; Position.S]) = Ok its /\
    assigned its = [(Some Position.N, [11; 12; 10; 13; 14; 15; 0; 1]);
                    (Some Position.S, [3; 4; 2; 5; 6; 7; 8; 9])] /\
    SpecAlgorithm.assignSlices 16 [Position.N; Position.S] = Some mapping /\
    SpecAlgorithm.assignSlices_with SpecAlgorithm.arc_ends 16
      [Position.N; Position.S] = Some mapping /\
    mapping = [(Position.N, [11; 12; 10; 13; 9; 14; 8; 15]);
               (Position.S, [3; 4; 2; 5; 1; 6; 0; 7])] /\
    ~ same_mapping (assigned its) mapping.
Proof.
  eexists _, _. split; [vm_compute; reflexivity |].
  split; [reflexivity |]. split; [vm_compute; reflexivity |].
  split; [vm_compute; reflexivity |]. split; [reflexivity |].
  intros H. inversion H as [| c s cs ss [_ Hmem] _]; subst.
  simpl in Hmem. specialize (Hmem 8). lia.
Qed.

(** ** Selection *)

Lemma dead_zone_check_true : dead_zone_check = true.
Proof. vm_compute. reflexivity. Qed.

Lemma dead_zone_offsets_In (d : Z) : -20 <= d <= 20 -> In d dead_zone_offsets.
Proof.
  intros Hd. unfold dead_zone_offsets. apply in_map_iff.
  exists (Z.to_nat (d + 20)). split; [lia |].
  apply in_seq. lia.
Qed.

(** Within 20 pixels the test [length > 20] fails. *)
Lemma dead_zone_length (dx dy : Z) :
  dx * dx + dy * dy <= 400 -> (20 <? math_hypot dx dy)%float = false.
Proof.
  intros H.
  assert (Hx : -20 <= dx <= 20) by nia.
  assert (Hy : -20 <= dy <= 20) by nia.
  pose proof dead_zone_check_true as Hc. unfold dead_zone_check in Hc.
  rewrite forallb_forall in Hc.
  specialize (Hc dx (dead_zone_offsets_In dx Hx)).
  rewrite forallb_forall in Hc.
  specialize (Hc dy (dead_zone_offsets_In dy Hy)).
  destruct (Z.leb_spec (dx * dx + dy * dy) 400); [| lia].
  now apply negb_true_iff in Hc.
Qed.

Section Selection.
Context {tk : Toolkit}.

(** The scan stops at the first radial item whose rectangle holds the
    cursor, whatever slice matches came before. *)
Lemma radial_scan_rect (pre post : list RadialMenuItem)
  (later : RadialMenuItem) (cursor_pos : QPoint) (rad_slice : Z) :
  forall active,
    (forall it, In it pre -> is_radial it = true ->
                contains (p_rect it) cursor_pos = false) ->
    is_radial later = true ->
    contains (p_rect later) cursor_pos = true ->
    radial_scan (pre ++ later :: post) cursor_pos rad_slice active = Some later.
Proof.
  induction pre as [| it pre IH]; intros active Hpre Hrad Hin; simpl.
  - unfold is_radial in Hrad. destruct (position later); [| discriminate].
    now rewrite Hin.
  - assert (Hpre' : forall it', In it' pre -> is_radial it' = true ->
                                contains (p_rect it') cursor_pos = false).
    { intros it' H. apply Hpre. now right. }
    pose proof (Hpre it (or_introl eq_refl)) as Hit. unfold is_radial in Hit.
    destruct (position it); [| now apply IH].
    rewrite Hit by reflexivity.
    destruct (mem rad_slice (slices it)); now apply IH.
Qed.

(** Outside the dead zone, when the column is not scanned, the selection is
    the result of the radial scan. *)
Lemma updateWidget_radial (m : RadialMenu) (cursor : QPoint) (rad_slice : Z) :
  (20 <? math_hypot (px (startPos m) - px cursor)
                    (py (startPos m) - py cursor))%float = true ->
  int_ (angleFromPoints (startPos m) cursor / 22.5)%float = Ok rad_slice ->
  gesture m = true \/
  (forall rect, column_widget_rect m = Some rect ->
                contains rect (mapFromParent cursor) = false) ->
  exists m',
    updateWidget m cursor = Ok m' /\
    activeItem m' =
      radial_scan (items m) (mapFromParent cursor) rad_slice None.
Proof.
  intros Hlen Hint Hcol. unfold updateWidget. rewrite Hint. simpl.
  rewrite Hlen.
  destruct Hcol as [Hg | Hout].
  - rewrite Hg. simpl. eexists. split; reflexivity.
  - destruct (negb (gesture m) && truthy rect_bool (column_widget_rect m));
      [| simpl; eexists; split; reflexivity].
    destruct (column_widget_rect m) as [rect |];
      [| simpl; eexists; split; reflexivity].
    rewrite (Hout rect eq_refl). simpl. eexists. split; reflexivity.
Qed.

(** C7: a cursor within 20 pixels of the session origin selects nothing,
    whatever the angle, the gesture state and the registered items. *)
Theorem dead_zone_selects_nothing (m : RadialMenu) (cursor : QPoint)
  (rad_slice : Z) :
  (px (startPos m) - px cursor) * (px (startPos m) - px cursor) +
  (py (startPos m) - py cursor) * (py (startPos m) - py cursor) <= 400 ->
  int_ (angleFromPoints (startPos m) cursor / 22.5)%float = Ok rad_slice ->
  exists m', updateWidget m cursor = Ok m' /\ activeItem m' = None.
Proof.
  intros Hdist Hint. unfold updateWidget. rewrite Hint. simpl.
  rewrite (dead_zone_length _ _ Hdist).
  eexists. split; reflexivity.
Qed.


(** C9: when the active item's callable raises, [mouseReleaseEvent] still
    returns normally, and it leaves no active item, the timer stopped and
    the column widget disabled. *)
Theorem release_swallows_exception (m m_raised : RadialMenu)
  (item : RadialMenuItem) (f : Callable) :
  activeItem m = Some item -> function item = Some f ->
  call f (hide m) = Raises m_raised ->
  exists m',
    mouseReleaseEvent m = Ok m' /\
    activeItem m' = None /\ timer_active m' = false /\
    column_widget_enabled m' = false.
Proof.
  intros Hactive Hf Hcall. unfold mouseReleaseEvent. simpl.
  rewrite Hactive, Hf, Hcall. eexists. split; [reflexivity |].
  repeat split.
Qed.
End Selection.

(** ** Cursor tracking *)

Lemma hypot_zero : math_hypot 0 0 = 0%float.
Proof. vm_compute. reflexivity. Qed.

Lemma settled_zero : settled (repeat 0%float 40) = true.
Proof. vm_compute. reflexivity. Qed.

Lemma settled_hundred : settled (repeat 100%float 40) = false.
Proof. vm_compute. reflexivity. Qed.

Lemma shift_in_hundred :
  shift_in (repeat 100%float 40) 100%float = repeat 100%float 40.
Proof. vm_compute. reflexivity. Qed.

Lemma settled_short (changes : list float) :
  (length changes < 40)%nat -> settled changes = false.
Proof.
  intros H. unfold settled, samples.
  destruct (Nat.ltb_spec (40 - 1) (length changes)); [lia | reflexivity].
Qed.

Lemma repeat_snoc {A : Type} (x : A) (k : nat) :
  repeat x k ++ [x] = repeat x (Datatypes.S k).
Proof. symmetry. apply repeat_cons. Qed.

Lemma pushed_repeat (x : float) (k : nat) :
  (k < 40)%nat -> pushed (repeat x k) x = repeat x (Datatypes.S k).
Proof.
  intros H. unfold pushed, samples. rewrite repeat_length.
  destruct (Nat.ltb_spec k 40); [apply repeat_snoc | lia].
Qed.

Lemma pushed_length (buf : list float) (x : float) :
  (length buf <= 40)%nat ->
  (length (pushed buf x) <= 40)%nat /\ (1 <= length (pushed buf x))%nat.
Proof.
  intros H. unfold pushed, shift_in, samples.
  destruct (Nat.ltb_spec (length buf) 40).
  - rewrite length_app. simpl. lia.
  - rewrite !length_app, length_firstn, length_skipn.
    destruct buf; cbn [length tl] in *; lia.
Qed.

Section Tracking.
Context {tk : Toolkit}.

Lemma column_scan_total (rects : list QRect) :
  forall its cursor_pos,
    (length rects <= length its)%nat ->
    exists r, column_scan rects its cursor_pos = Ok r.
Proof.
  induction rects as [| rect rects IH]; intros its cursor_pos Hlen; simpl.
  - eauto.
  - destruct its as [| it its]; simpl in Hlen; [lia |].
    destruct (contains rect cursor_pos); [eauto |].
    apply IH. simpl. lia.
Qed.

(** [updateWidget] only touches the selection. *)
Lemma updateWidget_total (m : RadialMenu) (cursor : QPoint) (rad_slice : Z) :
  column_consistent m ->
  int_ (angleFromPoints (startPos m) cursor / 22.5)%float = Ok rad_slice ->
  exists enabled active,
    updateWidget m cursor = Ok (with_selection m cursor enabled active).
Proof.
  intros Hcol Hint. unfold updateWidget. rewrite Hint. simpl.
  destruct (20 <? math_hypot _ _)%float; [| eauto].
  destruct (negb (gesture m) && truthy rect_bool (column_widget_rect m));
    [| simpl; eauto].
  destruct (column_widget_rect m) as [rect |]; [| simpl; eauto].
  destruct (contains rect (mapFromParent cursor)); [| simpl; eauto].
  destruct (column_scan_total (column_widget_rects m) (column_widget_items m)
              (column_mapFromGlobal cursor)) as (r & Hr).
  { unfold column_consistent in Hcol. lia. }
  rewrite Hr. simpl. destruct r; eauto.
Qed.

(** Storing a sample never fails when the two buffers have one length. *)
Lemma store_sample (changes0 times0 : list float) (change time_change : float) :
  length times0 = length changes0 ->
  exists times,
    (if (length changes0 <? samples)%nat
     then Ok (changes0 ++ [change], times0 ++ [time_change])
     else if (length times0 <? samples)%nat
          then Raise IndexError
          else Ok (shift_in changes0 change, shift_in times0 time_change))
    = Ok (pushed changes0 change, times) /\
    length times = length (pushed changes0 change).
Proof.
  intros Hlen. unfold pushed. rewrite Hlen.
  destruct (Nat.ltb_spec (length changes0) samples) as [Hlt | Hge].
  - eexists. split; [reflexivity |]. rewrite !length_app, Hlen. reflexivity.
  - eexists. split; [reflexivity |]. unfold shift_in.
    rewrite !length_app, !length_firstn, !length_skipn.
    unfold samples in *.
    destruct changes0, times0; cbn [length tl] in *; lia.
Qed.

(** One tick that stores a sample: gesture mode ends exactly when the test
    [settled] holds of the buffer with the new sample. *)
Lemma track_cursor_sample (m : RadialMenu) (t : Tick) (lp : QPoint)
  (t0 : float) :
  lastCursorPosition m = Some lp -> point_bool lp = true ->
  gesture m = true -> lastTime m = Some t0 ->
  length (timeChange m) = length (cursorChange m) ->
  column_consistent m ->
  (exists k, int_ (angleFromPoints (startPos m) (tick_live t) / 22.5)%float = Ok k) ->
  let changes :=
    pushed (cursorChange m)
           (math_hypot (px lp - px (tick_pos t)) (py lp - py (tick_pos t))) in
  exists m',
    track_cursor m t = Ok m' /\
    gesture m' = negb (settled changes) /\
    cursorChange m' = changes /\
    length (timeChange m') = length changes /\
    lastCursorPosition m' = Some (tick_pos t) /\
    lastTime m' = Some (tick_time t) /\
    startPos m' = startPos m /\
    column_consistent m' /\
    (settled changes = true -> timer_active m' = false).
Proof.
  intros Hlast Htruth Hg Htime Hlen Hcol (k & Hint) changes.
  unfold track_cursor. rewrite Hlast, Htruth, Hg, Htime. cbn [bind andb].
  destruct (store_sample (cursorChange m) (timeChange m)
              (math_hypot (px lp - px (tick_pos t)) (py lp - py (tick_pos t)))
              (tick_time t - t0)%float Hlen) as (times & -> & Htimes).
  fold changes in Htimes |- *. cbn [bind].
  destruct ((samples - 1 <? length changes)%nat) eqn:Hfull.
  - destruct ((mean changes <? cursor_speed_tolerance)%float) eqn:Hslow.
    + match goal with
      | |- context [updateWidget ?m1 _] =>
          destruct (updateWidget_total m1 (tick_live t) k Hcol Hint)
            as (enabled & active & Hup)
      end.
      rewrite Hup. cbn [bind]. eexists. split; [reflexivity |].
      unfold settled. rewrite Hfull, Hslow. simpl.
      conjs; try reflexivity; assumption.
    + cbn [bind]. eexists. split; [reflexivity |].
      unfold settled. rewrite Hfull, Hslow. simpl.
      conjs; try reflexivity; try assumption. discriminate.
  - cbn [bind]. eexists. split; [reflexivity |].
    unfold settled. rewrite Hfull. simpl.
    conjs; try reflexivity; try assumption. discriminate.
Qed.

(** A tick whose sample does not pass the test leaves gesture mode on. *)
Lemma track_cursor_keep (m : RadialMenu) (t : Tick) (lp : QPoint)
  (t0 : float) :
  lastCursorPosition m = Some lp -> point_bool lp = true ->
  gesture m = true -> lastTime m = Some t0 ->
  length (timeChange m) = length (cursorChange m) ->
  let changes :=
    pushed (cursorChange m)
           (math_hypot (px lp - px (tick_pos t)) (py lp - py (tick_pos t))) in
  settled changes = false ->
  exists m',
    track_cursor m t = Ok m' /\
    gesture m' = true /\
    cursorChange m' = changes /\
    length (timeChange m') = length changes /\
    lastCursorPosition m' = Some (tick_pos t) /\
    lastTime m' = Some (tick_time t).
Proof.
  intros Hlast Htruth Hg Htime Hlen changes Hks.
  unfold track_cursor. rewrite Hlast, Htruth, Hg, Htime. cbn [bind andb].
  destruct (store_sample (cursorChange m) (timeChange m)
              (math_hypot (px lp - px (tick_pos t)) (py lp - py (tick_pos t)))
              (tick_time t - t0)%float Hlen) as (times & -> & Htimes).
  fold changes in Htimes |- *. cbn [bind].
  unfold settled in Hks.
  destruct ((samples - 1 <? length changes)%nat) eqn:Hfull.
  - simpl in Hks. rewrite Hks. cbn [bind]. eexists. split; [reflexivity |].
    simpl. conjs; try reflexivity; assumption.
  - cbn [bind]. eexists. split; [reflexivity |].
    simpl. conjs; try reflexivity; assumption.
Qed.

(** A tick that finds no usable previous cursor only records the cursor. *)
Lemma track_cursor_skip (m : RadialMenu) (t : Tick) :
  truthy point_bool (lastCursorPosition m) = false ->
  track_cursor m t =
    Ok (with_tracking m (Some (tick_pos t)) (Some (tick_time t))
                      (cursorChange m) (timeChange m)).
Proof.
  intros H. unfold track_cursor.
  destruct (lastCursorPosition m) as [lp |]; simpl in H; [| reflexivity].
  rewrite H. reflexivity.
Qed.

Lemma run_zero_samples (zeros : list Tick) :
  forall m k p t0,
    gesture m = true -> lastCursorPosition m = Some p ->
    point_bool p = true -> lastTime m = Some t0 ->
    cursorChange m = repeat 0%float k -> length (timeChange m) = k ->
    column_consistent m ->
    Forall (fun t => tick_pos t = p) zeros ->
    (forall t, In t zeros ->
       exists j, int_ (angleFromPoints (startPos m) (tick_live t) / 22.5)%float
                 = Ok j) ->
    (k + length zeros <= 40)%nat -> (k < 40)%nat ->
    exists m',
      run_ticks m zeros = Ok m' /\
      gesture m' = negb (k + length zeros =? 40)%nat.
Proof.
  induction zeros as [| t rest IH];
    intros m k p t0 Hg Hlast Htruth Htime Hbuf Hlen Hcol Hpos Hint Hsum Hk.
  - exists m. split; [reflexivity |]. rewrite Hg.
    destruct (Nat.eqb_spec (k + length (@nil Tick)) 40); [simpl in *; lia | reflexivity].
  - apply Forall_cons_iff in Hpos. destruct Hpos as [Ht Hrest].
    assert (Hlen' : length (timeChange m) = length (cursorChange m)).
    { rewrite Hbuf, repeat_length. assumption. }
    destruct (track_cursor_sample m t p t0 Hlast Htruth Hg Htime
                Hlen' Hcol (Hint t (or_introl eq_refl)))
      as (m1 & Htc & Hg1 & Hbuf1 & Hlen1 & Hlast1 & Htime1 & Hstart1 & Hcol1 & _).
    rewrite Ht in Hg1, Hbuf1, Hlen1, Hlast1.
    rewrite !Z.sub_diag, hypot_zero, Hbuf, pushed_repeat in Hg1, Hbuf1, Hlen1
      by assumption.
    cbn [run_ticks]. rewrite Htc. cbn [bind].
    rewrite repeat_length in Hlen1. cbn [length] in Hsum.
    destruct (Nat.eq_dec (Datatypes.S k) 40) as [Hfull | Hshort].
    + destruct rest; [| cbn [length] in Hsum; lia].
      exists m1. split; [reflexivity |].
      rewrite Hg1, Hfull, settled_zero.
      cbn [length]. replace (k + 1)%nat with 40%nat by lia. reflexivity.
    + destruct (IH m1 (Datatypes.S k) p (tick_time t))
        as (m' & Hrun & Hg'); try assumption; try lia.
      * rewrite Hg1, settled_short; [reflexivity |]. rewrite repeat_length. lia.
      * intros t' Ht'. rewrite Hstart1. apply Hint. now right.
      * exists m'. split; [assumption |]. rewrite Hg'. cbn [length].
        replace (k + Datatypes.S (length rest))%nat
          with (Datatypes.S k + length rest)%nat by lia.
        reflexivity.
Qed.

Lemma pushed_hundred (k : nat) :
  (k <= 40)%nat ->
  exists k',
    (k' <= 40)%nat /\
    pushed (repeat 100%float k) 100%float = repeat 100%float k' /\
    settled (repeat 100%float k') = false.
Proof.
  intros Hk. destruct (Nat.eq_dec k 40) as [-> | Hne].
  - exists 40%nat. split; [lia |]. split; [| apply settled_hundred].
    unfold pushed. rewrite repeat_length. apply shift_in_hundred.
  - exists (Datatypes.S k). split; [lia |].
    split; [apply pushed_repeat; lia |].
    destruct (Nat.eq_dec (Datatypes.S k) 40) as [-> | Hne'];
      [apply settled_hundred |].
    apply settled_short. rewrite repeat_length. lia.
Qed.

Lemma run_hundred_samples (ticks : list Tick) :
  forall m k,
    gesture m = true ->
    cursorChange m = repeat 100%float k -> (k <= 40)%nat ->
    length (timeChange m) = k ->
    (lastCursorPosition m <> None -> lastTime m <> None) ->
    displaced_by 100%float (lastCursorPosition m) ticks ->
    exists m', run_ticks m ticks = Ok m' /\ gesture m' = true.
Proof.
  induction ticks as [| t rest IH]; intros m k Hg Hbuf Hk Hlen Htime Hchain.
  - exists m. split; [reflexivity | assumption].
  - destruct Hchain as [Hstep Hchain]. cbn [run_ticks].
    destruct (truthy point_bool (lastCursorPosition m)) eqn:Htruth.
    + destruct (lastCursorPosition m) as [lp |] eqn:Hlast; [| discriminate].
      simpl in Htruth.
      destruct (lastTime m) as [t0 |] eqn:Ht0;
        [| exfalso; apply Htime; [discriminate | reflexivity]].
      destruct (pushed_hundred k Hk) as (k' & Hk' & Hpush & Hkeep).
      assert (Hlen' : length (timeChange m) = length (cursorChange m)).
      { rewrite Hbuf, repeat_length. assumption. }
      destruct (track_cursor_keep m t lp t0 Hlast Htruth Hg Ht0 Hlen')
        as (m1 & Htc & Hg1 & Hbuf1 & Hlen1 & Hlast1 & Htime1).
      { rewrite Hstep, Hbuf, Hpush. assumption. }
      rewrite Hstep, Hbuf, Hpush in Hbuf1, Hlen1.
      rewrite Htc. cbn [bind]. apply (IH m1 k'); try assumption.
      * rewrite Hlen1, repeat_length. reflexivity.
      * rewrite Htime1. discriminate.
      * rewrite Hlast1. assumption.
    + rewrite (track_cursor_skip m t Htruth). cbn [bind].
      apply (IH _ k); simpl; try assumption. discriminate.
Qed.

End Tracking.

Lemma In_firstn {A : Type} (n : nat) (l : list A) (x : A) :
  In x (firstn n l) -> In x l.
Proof.
  intros H. rewrite <- (firstn_skipn n l). apply in_or_app. now left.
Qed.

Lemma settled_iff (changes : list float) :
  (length changes <= 40)%nat ->
  settled changes = true <->
  length changes = 40%nat /\
  (mean changes <? cursor_speed_tolerance)%float = true.
Proof.
  intros Hlen. unfold settled, samples. rewrite andb_true_iff.
  destruct (Nat.ltb_spec (40 - 1) (length changes)); split;
    intros [H1 H2]; split; try assumption; try reflexivity; try lia;
    discriminate.
Qed.

(** X24: a tick taken in gesture mode after a recorded cursor position that
    is a true value (any point but the null point) stores a sample and ends
    gesture mode exactly when the buffer then holds 40 samples whose mean is
    below 0.02; after [popup], a first tick at such a position followed by
    40 ticks at the same position ends gesture mode (and fewer of them do
    not); and ticks whose cursor moves by 100 at every tick never end it,
    however many they are. *)
Theorem gesture_ends_on_forty_slow_samples (tk : Toolkit) :
  (forall m t lp t0,
     lastCursorPosition m = Some lp -> point_bool lp = true ->
     gesture m = true -> lastTime m = Some t0 ->
     length (timeChange m) = length (cursorChange m) ->
     (length (cursorChange m) <= 40)%nat ->
     column_consistent m ->
     (exists k, int_ (angleFromPoints (startPos m) (tick_live t) / 22.5)%float
                = Ok k) ->
     exists m',
       track_cursor m t = Ok m' /\
       (gesture m' = false <->
        length (cursorChange m') = 40%nat /\
        (mean (cursorChange m') <? 0.02)%float = true)) /\
  (forall m pos0 first zeros,
     column_consistent m -> point_bool (tick_pos first) = true ->
     length zeros = 40%nat ->
     Forall (fun t => tick_pos t = tick_pos first) zeros ->
     (forall t, In t zeros ->
        exists k, int_ (angleFromPoints pos0 (tick_live t) / 22.5)%float = Ok k) ->
     (exists m',
        run_ticks (popup m pos0) (first :: zeros) = Ok m' /\
        gesture m' = false) /\
     (forall n, (n < 40)%nat ->
        exists m',
          run_ticks (popup m pos0) (first :: firstn n zeros) = Ok m' /\
          gesture m' = true)) /\
  (forall m pos0 ticks,
     displaced_by 100%float None ticks ->
     exists m', run_ticks (popup m pos0) ticks = Ok m' /\ gesture m' = true).
Proof.
  split; [| split].
  - intros m t lp t0 Hlast Htruth Hg Htime Hlen Hcap Hcol Hint.
    destruct (track_cursor_sample m t lp t0 Hlast Htruth Hg Htime Hlen Hcol Hint)
      as (m' & Htc & Hg' & Hbuf & _).
    exists m'. split; [assumption |]. rewrite Hg', Hbuf.
    rewrite <- settled_iff by (apply pushed_length; assumption).
    destruct (settled _); split; intros H; try reflexivity; discriminate.
  - intros m pos0 first zeros Hcol Htruth Hlen Hpos Hint.
    assert (Hfirst :
      track_cursor (popup m pos0) first =
        Ok (with_tracking (popup m pos0) (Some (tick_pos first))
              (Some (tick_time first)) [] [])).
    { apply track_cursor_skip. reflexivity. }
    assert (Hrun : forall zs,
      (length zs <= 40)%nat ->
      (forall t, In t zs -> In t zeros) ->
      exists m',
        run_ticks (popup m pos0) (first :: zs) = Ok m' /\
        gesture m' = negb (length zs =? 40)%nat).
    { intros zs Hzs Hsub. cbn [run_ticks]. rewrite Hfirst. cbn [bind].
      apply (run_zero_samples zs _ 0%nat (tick_pos first) (tick_time first));
        try reflexivity; try assumption; try lia.
      - apply Forall_forall. intros t Ht.
        rewrite Forall_forall in Hpos. auto.
      - intros t Ht. simpl. auto. }
    split.
    + destruct (Hrun zeros) as (m' & Hm' & Hg'); [lia | auto |].
      exists m'. split; [assumption |]. rewrite Hg', Hlen. reflexivity.
    + intros n Hn. destruct (Hrun (firstn n zeros)) as (m' & Hm' & Hg').
      * rewrite length_firstn. lia.
      * intros t. apply In_firstn.
      * exists m'. split; [assumption |]. rewrite Hg', length_firstn, Hlen.
        destruct (Nat.eqb_spec (Nat.min n 40) 40); [lia | reflexivity].
  - intros m pos0 ticks Hchain.
    apply (run_hundred_samples ticks _ 0%nat); try reflexivity;
      try assumption; try lia.
    simpl. congruence.
Qed.

Lemma gesture_ends_on_forty_slow_samples_witness :
  (exists m',
     @run_ticks sample_toolkit (popup init (mkQPoint 5 5))
       (mkTick (mkQPoint 5 5) 0%float (mkQPoint 5 5)
        :: repeat (mkTick (mkQPoint 5 5) 1%float (mkQPoint 5 5)) 40) = Ok m' /\
     gesture m' = false) /\
  (exists m',
     @run_ticks sample_toolkit (popup init (mkQPoint 5 5)) striding_ticks
       = Ok m' /\
     gesture m' = true).
Proof.
  destruct (gesture_ends_on_forty_slow_samples sample_toolkit)
    as (_ & Hzero & Hhundred).
  split.
  - destruct (Hzero init (mkQPoint 5 5)
                (mkTick (mkQPoint 5 5) 0%float (mkQPoint 5 5))
                (repeat (mkTick (mkQPoint 5 5) 1%float (mkQPoint 5 5)) 40))
      as [Hends _].
    + reflexivity.
    + reflexivity.
    + reflexivity.
    + apply Forall_forall. intros t Ht. apply repeat_spec in Ht.
      rewrite Ht. reflexivity.
    + intros t Ht. apply repeat_spec in Ht. rewrite Ht.
      exists 0. vm_compute. reflexivity.
    + exact Hends.
  - apply Hhundred. vm_compute. conjs; reflexivity.
Defined.

(** C6: a cursor that rests at the origin of the screen does not end
    gesture mode.  The null point is a false value, so the test
    [if self.lastCursorPosition and self.gesture] fails at every tick, no
    sample is ever stored, and the session is still in gesture mode after
    the first tick and 40, or 400, ticks of zero displacement. *)
Theorem resting_at_origin_never_settles :
  (exists m',
     @run_ticks sample_toolkit (popup init (mkQPoint 0 0))
       (mkTick (mkQPoint 0 0) 0%float (mkQPoint 0 0)
        :: repeat (mkTick (mkQPoint 0 0) 1%float (mkQPoint 0 0)) 40) = Ok m' /\
     gesture m' = true /\ cursorChange m' = []) /\
  (exists m',
     @run_ticks sample_toolkit (popup init (mkQPoint 0 0))
       (mkTick (mkQPoint 0 0) 0%float (mkQPoint 0 0)
        :: repeat (mkTick (mkQPoint 0 0) 1%float (mkQPoint 0 0)) 400) = Ok m' /\
     gesture m' = true /\ cursorChange m' = []).
Proof.
  split; eexists; (split; [vm_compute; reflexivity |]); split; reflexivity.
Qed.

(** ** Instances on the sample toolkit *)

Definition two_item_menu : RadialMenu :=
  mkMenu [mkItem (Some Position.E) (mkQRect 0 0 10 10) [15; 0] None;
          mkItem (Some Position.S) (mkQRect 100 100 50 50) [3; 4] None]
         [] [] None true None true true true
         (mkQPoint 0 0) (mkQPoint 0 0) None None [] [].

Lemma dead_zone_selects_nothing_witness :
  exists m',
    @updateWidget sample_toolkit (popup two_item_menu (mkQPoint 100 100))
      (mkQPoint 112 116) = Ok m' /\
    activeItem m' = None.
Proof.
  apply (@dead_zone_selects_nothing sample_toolkit
           (popup two_item_menu (mkQPoint 100 100)) (mkQPoint 112 116) 0).
  - simpl. lia.
  - vm_compute. reflexivity.
Defined.



(** ** The angle of a far point *)



Definition raising_menu : RadialMenu :=
  mkMenu [mkItem (Some Position.N) (mkQRect 0 0 10 10) [11; 12] (Some O)]
         [] [] None true
         (Some (mkItem (Some Position.N) (mkQRect 0 0 10 10) [11; 12] (Some O)))
         true true true
         (mkQPoint 0 0) (mkQPoint 0 0) None None [] [].

Lemma release_swallows_exception_witness :
  exists m',
    @mouseReleaseEvent sample_toolkit raising_menu = Ok m' /\
    activeItem m' = None /\ timer_active m' = false /\
    column_widget_enabled m' = false.
Proof.
  pose proof (@release_swallows_exception sample_toolkit raising_menu
                (hide raising_menu)
                (mkItem (Some Position.N) (mkQRect 0 0 10 10) [11; 12] (Some O))
                O) as H.
  assert (Hactive : activeItem raising_menu =
            Some (mkItem (Some Position.N) (mkQRect 0 0 10 10) [11; 12] (Some O)))
    by reflexivity.
  assert (Hcall : @call sample_toolkit O (hide raising_menu)
                  = Raises (hide raising_menu)) by reflexivity.
  exact (H Hactive eq_refl Hcall).
Defined.

(** * Further definitions *)

(** The offsets from [-100] to [100], and the comparison of the test of
    [updateWidget] with the exact one on every pair of them. *)
Definition near_offsets : list Z :=
  map (fun k => Z.of_nat k - 100) (seq 0 201).

Definition dead_zone_exact_check : bool :=
  forallb (fun dx =>
    forallb (fun dy =>
      Bool.eqb (20 <? math_hypot dx dy)%float (400 <? dx * dx + dy * dy))
      near_offsets) near_offsets.

(** Any number of passes, one after the other. *)
Inductive passes : list Z -> list (list Z) -> list Z -> list (list Z) -> Prop :=
| passes_done used sets : passes used sets used sets
| passes_more used sets used1 sets1 used2 sets2 :
    pass used sets used1 sets1 ->
    passes used1 sets1 used2 sets2 ->
    passes used sets used2 sets2.

(** [sl] starts with the list [d]. *)
Definition starts_with (d sl : list Z) : Prop := exists ext, sl = d ++ ext.

(** The slices of [sl] are the [len] slices from [start] on; [sl] begins at
    the start of the arc unless the slice before its head is already in it,
    and ends at the end of the arc unless the slice after its last element
    is already in it. *)
Definition arc_shaped (sl : list Z) : Prop :=
  exists start len,
    in_range start /\ (len <= 16)%nat /\
    Permutation sl (arc start len) /\
    (hd 0 sl = start \/ In (pie_last (hd 0 sl)) sl) /\
    (last sl 0 = (start + Z.of_nat len - 1) mod 16 \/
     In (pie_next (last sl 0)) sl).

(** An item with no position: a column item. *)
Definition is_column (item : RadialMenuItem) : bool := negb (is_radial item).

(** The two lists of the column widget list the column items of
    [self.items], in order, with their rectangles. *)
Definition column_in_step (m : RadialMenu) : Prop :=
  column_widget_items m = filter is_column (items m) /\
  column_widget_rects m = map p_rect (column_widget_items m).

(** An item owns the slice [rad_slice]. *)
Definition owns (rad_slice : Z) (item : RadialMenuItem) : bool :=
  is_radial item && mem rad_slice (slices item).

(** Two radial items whose rectangles overlap. *)
Definition overlapping_menu : RadialMenu :=
  mkMenu [mkItem (Some Position.E) (mkQRect 100 100 50 50) [15; 0] None;
          mkItem (Some Position.S) (mkQRect 110 110 50 50) [3; 4] None]
         [] [] None true None true true true
         (mkQPoint 0 0) (mkQPoint 0 0) None None [] [].

(** A settled menu with one radial item and one column item. *)
Definition column_menu : RadialMenu :=
  mkMenu [mkItem (Some Position.SE) (mkQRect 0 0 100 100) [1; 2] None;
          mkItem None (mkQRect 0 0 100 40) [] None]
         [mkItem None (mkQRect 0 0 100 40) [] None]
         [mkQRect 0 0 100 40] (Some (mkQRect 0 0 100 100))
         false None false false true
         (mkQPoint 0 0) (mkQPoint 0 0) None None [] [].

(** The menu left by registering an item at N and then one at S. *)
Definition north_south_menu : RadialMenu :=
  Eval vm_compute in
    match @add_items sample_toolkit init
            [radial_item Position.N; radial_item Position.S] with
    | Ok m => m
    | _ => init
    end.

(** The state [track_cursor] relies on: two buffers of one length, of at
    most [samples] entries, and a time stored with every stored cursor. *)
Definition tracked (m : RadialMenu) : Prop :=
  length (timeChange m) = length (cursorChange m) /\
  (length (cursorChange m) <= 40)%nat /\
  (lastCursorPosition m <> None -> lastTime m <> None).

(** A session whose gesture mode is over. *)
Definition settled_menu : RadialMenu :=
  mkMenu [] [] [] None true None false false true
         (mkQPoint 0 0) (mkQPoint 0 0) (Some (mkQPoint 5 5)) (Some 0%float)
         (repeat 0%float 40) (repeat 1%float 40).

(** A session in gesture mode whose buffers are full. *)
Definition full_buffer_menu : RadialMenu :=
  mkMenu [] [] [] None true None true true true
         (mkQPoint 0 0) (mkQPoint 0 0) (Some (mkQPoint 5 5)) (Some 0%float)
         (repeat 1%float 40) (repeat 1%float 40).

(** A session in gesture mode, with a column, whose buffers hold 40 zero
    displacements but for the oldest. *)
Definition settling_menu : RadialMenu :=
  mkMenu [mkItem None (mkQRect 0 0 100 40) [] None]
         [mkItem None (mkQRect 0 0 100 40) [] None]
         [mkQRect 0 0 100 40] (Some (mkQRect 0 0 100 100))
         false None true true true
         (mkQPoint 0 0) (mkQPoint 0 0) (Some (mkQPoint 5 5)) (Some 0%float)
         (100%float :: repeat 0%float 39) (repeat 1%float 40).

(** A session in gesture mode after 40 samples of displacement 100. *)
Definition moving_menu : RadialMenu :=
  mkMenu [] [] [] None true None true true true
         (mkQPoint 0 0) (mkQPoint 0 0) (Some (mkQPoint 5 5)) (Some 0%float)
         (repeat 100%float 40) (repeat 1%float 40).

(** * Further properties of the code *)

(** ** The ring of slices *)

(** X1: [pie_next] and [pie_last] are inverse of each other on the slices
    0 to 15, never leave them, and sixteen steps of either come back to the
    start. *)
Theorem pie_next_pie_last_inverse (s : Z) :
  in_range s ->
  pie_next (pie_last s) = s /\ pie_last (pie_next s) = s /\
  in_range (pie_next s) /\ in_range (pie_last s) /\
  Nat.iter 16 pie_next s = s /\ Nat.iter 16 pie_last s = s.
Proof.
  intros Hs. conjs; try (ring16; fail).
  - apply in_range_all_slices in Hs. unfold all_slices in Hs. simpl in Hs.
    repeat (destruct Hs as [<- | Hs]; [reflexivity |]). contradiction.
  - apply in_range_all_slices in Hs. unfold all_slices in Hs. simpl in Hs.
    repeat (destruct Hs as [<- | Hs]; [reflexivity |]). contradiction.
Qed.

Lemma pie_next_pie_last_inverse_witness :
  pie_next (pie_last 0) = 0 /\ pie_last (pie_next 0) = 0 /\
  in_range (pie_next 0) /\ in_range (pie_last 0) /\
  Nat.iter 16 pie_next 0 = 0 /\ Nat.iter 16 pie_last 0 = 0.
Proof.
  apply (pie_next_pie_last_inverse 0). unfold in_range. lia.
Defined.

(** ** What a run of the loop keeps *)

Lemma claim_neighbours_Ok (used used' : list Z) (item item' : RadialMenuItem) :
  claim_neighbours used item = Ok (used', item') ->
  turn used (slices item) used' (slices item') /\
  position item' = position item /\
  p_rect item' = p_rect item /\
  function item' = function item.
Proof.
  intros H.
  assert (Hne : slices item <> []).
  { intros Hnil. unfold claim_neighbours in H. rewrite Hnil in H. discriminate. }
  destruct (claim_neighbours_turn used item Hne) as (u & it & Heq & Hrest).
  rewrite Heq in H. injection H as <- <-. exact Hrest.
Qed.

Lemma claim_pass_Ok (items : list RadialMenuItem) :
  forall used used' items',
    claim_pass used items = Ok (used', items') ->
    pass used (map slices items) used' (map slices items') /\
    map position items' = map position items /\
    map p_rect items' = map p_rect items /\
    map function items' = map function items.
Proof.
  induction items as [| item rest IH]; intros used used' items' H; simpl in H.
  - injection H as <- <-. repeat split. constructor.
  - destruct (claim_neighbours used item) as [[u1 it1] | e |] eqn:Hcn;
      simpl in H; try discriminate.
    destruct (claim_pass u1 rest) as [[u2 r2] | e |] eqn:Hcp;
      simpl in H; try discriminate.
    injection H as <- <-.
    destruct (claim_neighbours_Ok _ _ _ _ Hcn) as (Hturn & Hp & Hr & Hf).
    destruct (IH _ _ _ Hcp) as (Hpass & Hps & Hrs & Hfs).
    simpl. conjs; try (f_equal; assumption).
    econstructor; eassumption.
Qed.

Lemma claim_loop_Ok (fuel : nat) :
  forall used items used' items',
    claim_loop fuel used items = Ok (used', items') ->
    passes used (map slices items) used' (map slices items') /\
    (16 <= length used')%nat /\
    map position items' = map position items /\
    map p_rect items' = map p_rect items /\
    map function items' = map function items.
Proof.
  induction fuel as [| fuel IH]; intros used items used' items' H; simpl in H.
  - destruct (Z.ltb_spec (Z.of_nat (length used)) 16); [discriminate |].
    injection H as <- <-. conjs; try reflexivity; [constructor | lia].
  - destruct (Z.ltb_spec (Z.of_nat (length used)) 16).
    + destruct (claim_pass used items) as [[u1 i1] | e |] eqn:Hcp;
        simpl in H; try discriminate.
      destruct (claim_pass_Ok _ _ _ _ Hcp) as (Hpass & Hp & Hr & Hf).
      destruct (IH _ _ _ _ H) as (Hpasses & Hlen & Hp' & Hr' & Hf').
      conjs; try congruence. econstructor; eassumption.
    + injection H as <- <-. conjs; try reflexivity; [constructor | lia].
Qed.

(** What [update_slice_membership] returns was reached from the default
    pairs of the items' positions by passes of the loop. *)
Lemma update_slice_membership_Ok (items items' : list RadialMenuItem) :
  update_slice_membership items = Ok items' ->
  exists ps used',
    ps <> [] /\
    map position items = map Some ps /\
    passes (concat (map slices_table ps)) (map slices_table ps)
           used' (map slices items') /\
    (16 <= length used')%nat /\
    map position items' = map position items /\
    map p_rect items' = map p_rect items /\
    map function items' = map function items.
Proof.
  unfold update_slice_membership, update_slice_membership_fuel. intros H.
  destruct (reset_slices items) as [[u0 i0] | e |] eqn:Hreset;
    cbn [bind] in H; try discriminate.
  destruct (claim_loop 16 u0 i0) as [[u1 i1] | e |] eqn:Hloop;
    cbn [bind] in H; try discriminate.
  injection H as <-.
  destruct (reset_slices_ok_radial _ _ _ Hreset) as (ps & Hps).
  destruct (reset_slices_radial items ps Hps) as (i0' & Hreset' & Hsl & Hp & Hr & Hf).
  rewrite Hreset in Hreset'. injection Hreset' as -> ->.
  destruct (claim_loop_Ok _ _ _ _ _ Hloop) as (Hpasses & Hlen & Hp' & Hr' & Hf').
  rewrite Hsl in Hpasses.
  exists ps, u1. conjs; try congruence.
  intros ->. apply map_eq_nil in Hsl. rewrite Hsl in Hloop.
  simpl in Hloop. discriminate.
Qed.

(** A property of [slices_used] and the slice lists that holds of the
    default pairs and that every pass keeps holds of the result. *)
Lemma passes_keep (P : list Z -> list (list Z) -> Prop) :
  (forall used sets used' sets', P used sets -> pass used sets used' sets' ->
                                 P used' sets') ->
  forall used sets used' sets',
    passes used sets used' sets' -> P used sets -> P used' sets'.
Proof.
  intros Hstep used sets used' sets' H.
  induction H as [| used sets used1 sets1 used2 sets2 Hpass _ IH]; [auto |].
  intros HP. apply IH. eapply Hstep; eassumption.
Qed.

Lemma map_Some_inj {A : Type} (l l' : list A) :
  map Some l = map Some l' -> l = l'.
Proof.
  revert l'. induction l as [| a l IH]; intros [| b l'] H; try discriminate;
    [reflexivity |].
  simpl in H. injection H as -> H. f_equal. auto.
Qed.

Lemma pass_starts_with (used used' : list Z) (sets sets' : list (list Z)) :
  pass used sets used' sets' ->
  forall ds, Forall2 starts_with ds sets -> Forall2 starts_with ds sets'.
Proof.
  induction 1 as [used | used sl rest used1 sl' used2 rest' Hturn _ IH];
    intros ds Hds; [assumption |].
  inversion Hds as [| d ? ds' ? (ext & ->) Hrest]; subst.
  constructor; [| now apply IH].
  destruct Hturn as (ext' & _ & -> & _). exists (ext ++ ext').
  now rewrite app_assoc.
Qed.

Lemma starts_with_refl (ds : list (list Z)) : Forall2 starts_with ds ds.
Proof.
  induction ds as [| d ds IH]; constructor; [| assumption].
  exists []. now rewrite app_nil_r.
Qed.

(** X2: recomputing the slices of radial items changes nothing but the
    slices, and every item's slices start with the default pair of its
    position. *)
Theorem update_keeps_default_pairs (items : list RadialMenuItem)
  (ps : list Position.t) :
  map position items = map Some ps -> ps <> [] ->
  exists items',
    update_slice_membership items = Ok items' /\
    map position items' = map position items /\
    map p_rect items' = map p_rect items /\
    map function items' = map function items /\
    Forall2 (fun p item' => starts_with (slices_table p) (slices item'))
            ps items'.
Proof.
  intros Hps Hne.
  destruct (update_slice_membership_total items ps Hps Hne)
    as (used' & items' & Hup & _).
  destruct (update_slice_membership_Ok _ _ Hup)
    as (ps' & u & _ & Hps' & Hpasses & _ & Hp & Hr & Hf).
  rewrite Hps in Hps'. apply map_Some_inj in Hps'. subst ps'.
  exists items'. conjs; try assumption.
  assert (H : Forall2 starts_with (map slices_table ps) (map slices items')).
  { eapply (passes_keep (fun _ sets => Forall2 starts_with (map slices_table ps) sets));
      [| eassumption | apply starts_with_refl].
    intros u0 s0 u1 s1 H0 Hpass. eapply pass_starts_with; eassumption. }
  clear -H. revert items' H.
  induction ps as [| p ps IH]; intros [| it its] H; inversion H; subst;
    constructor; auto.
Qed.

Lemma update_keeps_default_pairs_witness :
  exists items',
    update_slice_membership [radial_item Position.W; radial_item Position.NE]
      = Ok items' /\
    map position items' =
      map position [radial_item Position.W; radial_item Position.NE] /\
    map p_rect items' =
      map p_rect [radial_item Position.W; radial_item Position.NE] /\
    map function items' =
      map function [radial_item Position.W; radial_item Position.NE] /\
    Forall2 (fun p item' => starts_with (slices_table p) (slices item'))
            [Position.W; Position.NE] items'.
Proof.
  apply (update_keeps_default_pairs
           [radial_item Position.W; radial_item Position.NE]
           [Position.W; Position.NE]).
  - reflexivity.
  - discriminate.
Defined.

Lemma defaults_length (ps : list Position.t) :
  length (concat (map slices_table ps)) = (2 * length ps)%nat.
Proof.
  induction ps as [| p ps IH]; [reflexivity |].
  simpl. rewrite length_app, IH. destruct p; simpl; lia.
Qed.

(** X3: with eight or more radial items registered, whatever their
    positions, the loop body never runs and every item has exactly the
    default pair of its position. *)
Theorem eight_items_keep_defaults (items : list RadialMenuItem)
  (ps : list Position.t) :
  map position items = map Some ps -> (8 <= length ps)%nat ->
  exists items',
    update_slice_membership items = Ok items' /\
    map slices items' = map slices_table ps.
Proof.
  intros Hps Hlen.
  destruct (reset_slices_radial items ps Hps) as (i0 & Hreset & Hsl & _).
  exists i0. split; [| assumption].
  unfold update_slice_membership, update_slice_membership_fuel.
  rewrite Hreset. cbn [bind].
  assert (Hfull : (Z.of_nat (length (concat (map slices_table ps))) <? 16) = false).
  { rewrite defaults_length. apply Z.ltb_ge. lia. }
  unfold claim_loop. rewrite Hfull. reflexivity.
Qed.

Lemma eight_items_keep_defaults_witness :
  exists items',
    update_slice_membership
      (map radial_item [Position.N; Position.N; Position.N; Position.N;
                        Position.S; Position.S; Position.S; Position.S])
      = Ok items' /\
    map slices items' =
      map slices_table [Position.N; Position.N; Position.N; Position.N;
                        Position.S; Position.S; Position.S; Position.S].
Proof.
  apply (eight_items_keep_defaults
           (map radial_item [Position.N; Position.N; Position.N; Position.N;
                             Position.S; Position.S; Position.S; Position.S])).
  - reflexivity.
  - simpl. lia.
Defined.

(** ** Arcs *)

Lemma arc_length (start : Z) (len : nat) : length (arc start len) = len.
Proof. unfold arc. now rewrite length_map, length_seq. Qed.

Lemma arc_In (start : Z) (len : nat) (x : Z) :
  In x (arc start len) <->
  exists k, (k < len)%nat /\ x = (start + Z.of_nat k) mod 16.
Proof.
  unfold arc. rewrite in_map_iff. split.
  - intros (k & <- & Hk). apply in_seq in Hk. exists k. split; [lia | reflexivity].
  - intros (k & Hk & ->). exists k. split; [reflexivity | apply in_seq; lia].
Qed.

Lemma arc_range (start : Z) (len : nat) (x : Z) :
  In x (arc start len) -> in_range x.
Proof.
  intros H. apply arc_In in H. destruct H as (k & _ & ->).
  apply Z.mod_pos_bound. lia.
Qed.

Lemma arc_S (start : Z) (len : nat) :
  arc start (Datatypes.S len) = arc start len ++ [(start + Z.of_nat len) mod 16].
Proof.
  unfold arc. rewrite seq_S, map_app. reflexivity.
Qed.

Lemma pie_last_shift (start : Z) (k : nat) :
  in_range start ->
  (pie_last start + Z.of_nat (Datatypes.S k)) mod 16 = (start + Z.of_nat k) mod 16.
Proof.
  intros Hs. unfold in_range in Hs.
  destruct (Z.eq_dec start 0) as [-> | Hne].
  - change (pie_last 0) with 15.
    replace (15 + Z.of_nat (Datatypes.S k)) with (0 + Z.of_nat k + 1 * 16) by lia.
    apply Z_mod_plus_full.
  - f_equal. ring16.
Qed.

Lemma arc_cons (start : Z) (len : nat) :
  in_range start ->
  arc (pie_last start) (Datatypes.S len) = pie_last start :: arc start len.
Proof.
  intros Hs. unfold arc. simpl. f_equal.
  - rewrite Z.add_0_r. apply Z.mod_small. apply pie_last_range. assumption.
  - rewrite <- seq_shift, map_map. apply map_ext. intros k.
    now apply pie_last_shift.
Qed.

Lemma mod16_inj (s a b : Z) :
  0 <= a < 16 -> 0 <= b < 16 ->
  (s + a) mod 16 = (s + b) mod 16 -> a = b.
Proof.
  intros Ha Hb H.
  pose proof (Z.div_mod (s + a) 16 ltac:(lia)) as H1.
  pose proof (Z.div_mod (s + b) 16 ltac:(lia)) as H2.
  rewrite H in H1. lia.
Qed.

Lemma arc_NoDup (start : Z) (len : nat) :
  (len <= 16)%nat -> NoDup (arc start len).
Proof.
  induction len as [| len IH]; intros Hlen; [constructor |].
  rewrite arc_S. apply NoDup_app; [apply IH; lia | repeat constructor; intros [] |].
  intros x Hx [<- | []]. apply arc_In in Hx. destruct Hx as (k & Hk & Heq).
  apply mod16_inj in Heq; lia.
Qed.

Lemma range_NoDup_length (l : list Z) :
  NoDup l -> (forall x, In x l -> in_range x) -> (length l <= 16)%nat.
Proof.
  intros Hnd Hr.
  assert (Hincl : incl l all_slices).
  { intros x Hx. apply in_range_all_slices. auto. }
  exact (NoDup_incl_length Hnd Hincl).
Qed.

Lemma arc_shaped_contiguous (sl : list Z) : arc_shaped sl -> contiguous16 sl.
Proof.
  intros (start & len & _ & _ & Hperm & _). exists start.
  rewrite (Permutation_length Hperm), arc_length. assumption.
Qed.

Lemma slices_table_arc_shaped (p : Position.t) : arc_shaped (slices_table p).
Proof.
  exists (hd 0 (slices_table p)), 2%nat.
  destruct p; simpl; unfold in_range; conjs; try lia; try (now left);
    apply Permutation_refl.
Qed.

(** The four things a turn can append. *)
Lemma turn_cases (used sl used' sl' : list Z) :
  turn used sl used' sl' ->
  let n := pie_last (hd 0 sl) in
  let l := pie_next (last sl 0) in
  exists ext,
    used' = used ++ ext /\ sl' = sl ++ ext /\
    (forall x, In x ext -> ~ In x used) /\
    (ext = [] \/ ext = [n] \/ ext = [l] \/ (ext = [n; l] /\ n <> l)).
Proof.
  intros (ext & Hu & Hs & Hnd & Hext & _) n l.
  exists ext. conjs; try assumption.
  - intros x Hx. apply Hext. assumption.
  - assert (Hkind : forall x, In x ext -> x = n \/ (x = l /\ last sl' 0 = x)).
    { intros x Hx. apply Hext. assumption. }
    destruct ext as [| a [| b [| c rest]]].
    + now left.
    + destruct (Hkind a (or_introl eq_refl)) as [-> | [-> _]]; auto.
    + right. right. right.
      assert (Hab : a <> b).
      { inversion Hnd as [| ? ? Hnot _]; subst. intros ->. apply Hnot. now left. }
      assert (Hlast : last sl' 0 = b).
      { rewrite Hs. change [a; b] with ([a] ++ [b]).
        rewrite app_assoc. apply last_last. }
      destruct (Hkind a (or_introl eq_refl)) as [-> | [_ Ha]];
        [| congruence].
      destruct (Hkind b (or_intror (or_introl eq_refl))) as [-> | [-> _]];
        [congruence |].
      split; [reflexivity | assumption].
    + exfalso.
      assert (Hkind' : forall x, In x (a :: b :: c :: rest) ->
                                 x = n \/ x = last sl' 0).
      { intros x Hx. destruct (Hkind x Hx) as [-> | [_ Hx']]; auto. }
      inversion Hnd as [| ? ? Hna Hnd1]; subst.
      inversion Hnd1 as [| ? ? Hnb _]; subst.
      assert (Hab : a <> b) by (intros ->; apply Hna; now left).
      assert (Hac : a <> c) by (intros ->; apply Hna; right; now left).
      assert (Hbc : b <> c) by (intros ->; apply Hnb; now left).
      destruct (Hkind' a (or_introl eq_refl));
        destruct (Hkind' b (or_intror (or_introl eq_refl)));
        destruct (Hkind' c (or_intror (or_intror (or_introl eq_refl))));
        congruence.
Qed.

Lemma arc_end_next (start : Z) (len : nat) :
  pie_next ((start + Z.of_nat len - 1) mod 16) = (start + Z.of_nat len) mod 16.
Proof.
  assert (He : in_range ((start + Z.of_nat len - 1) mod 16))
    by (apply Z.mod_pos_bound; lia).
  destruct (spec_steps_agree _ He) as [_ <-]. unfold SpecAlgorithm.next.
  rewrite Zplus_mod_idemp_l. f_equal. lia.
Qed.

Lemma hd_In (sl : list Z) : sl <> [] -> In (hd 0 sl) sl.
Proof. destruct sl; [congruence | now left]. Qed.

Lemma last_In (sl : list Z) : sl <> [] -> In (last sl 0) sl.
Proof.
  intros Hne. destruct (exists_last Hne) as (l0 & a & ->).
  rewrite last_last. apply in_or_app. right. now left.
Qed.

Lemma hd_app_nonempty (sl ext : list Z) : sl <> [] -> hd 0 (sl ++ ext) = hd 0 sl.
Proof. destruct sl; [congruence | reflexivity]. Qed.

(** A turn keeps the slices of an item an arc. *)
Lemma turn_arc_shaped (used sl used' sl' : list Z) :
  turn used sl used' sl' ->
  sl <> [] -> (forall x, In x sl -> In x used) ->
  (forall x, In x sl -> in_range x) ->
  arc_shaped sl -> arc_shaped sl'.
Proof.
  intros Hturn Hne Hused Hrange (start & len & Hs & Hlen & Hperm & Hhd & Hlast).
  destruct (turn_cases _ _ _ _ Hturn) as (ext & _ & -> & Hfresh & Hcases).
  set (n := pie_last (hd 0 sl)) in *. set (l := pie_next (last sl 0)) in *.
  pose proof (hd_In sl Hne) as Hhd_in. pose proof (last_In sl Hne) as Hlast_in.
  assert (Hnd : NoDup sl).
  { apply (Permutation_NoDup (Permutation_sym Hperm)). now apply arc_NoDup. }
  assert (Hlensl : length sl = len).
  { rewrite (Permutation_length Hperm). apply arc_length. }
  assert (Hleft : ~ In n used -> hd 0 sl = start).
  { intros Hn. destruct Hhd as [H | H]; [assumption |].
    exfalso. apply Hn. apply Hused. exact H. }
  assert (Hright : ~ In l used -> l = (start + Z.of_nat len) mod 16).
  { intros Hl. destruct Hlast as [H | H].
    - unfold l. rewrite H. apply arc_end_next.
    - exfalso. apply Hl. apply Hused. exact H. }
  assert (Hbound : (forall y, In y ext -> y = n \/ y = l) ->
                   NoDup ext -> (length (sl ++ ext) <= 16)%nat).
  { intros Hkind Hnde. apply range_NoDup_length.
    - apply NoDup_app; try assumption.
      intros x Hx Hx'. apply (Hfresh x Hx'). now apply Hused.
    - intros x Hx. apply in_app_or in Hx. destruct Hx as [Hx | Hx]; [auto |].
      destruct (Hkind x Hx) as [-> | ->].
      + apply pie_last_range. auto.
      + apply pie_next_range. auto. }
  destruct Hcases as [-> | [-> | [-> | [-> Hnl]]]].
  - rewrite app_nil_r. exists start, len. conjs; assumption.
  - assert (Hn : ~ In n used) by (apply Hfresh; now left).
    specialize (Hleft Hn).
    assert (Hn' : n = pie_last start) by (unfold n; now rewrite Hleft).
    exists (pie_last start), (Datatypes.S len). conjs.
    + now apply pie_last_range.
    + rewrite length_app, Hlensl in Hbound.
      simpl in Hbound. enough (len + 1 <= 16)%nat by lia.
      apply Hbound; [intros y [<- | []]; now left |].
      repeat constructor. intros [].
    + rewrite arc_cons, <- Hn' by assumption.
      apply Permutation_sym, Permutation_cons_app.
      rewrite app_nil_r. now apply Permutation_sym.
    + right. rewrite hd_app_nonempty by assumption.
      apply in_or_app. right. now left.
    + right. rewrite last_last. apply in_or_app. left.
      rewrite Hn', pie_next_last by assumption. now rewrite <- Hleft.
  - assert (Hl : ~ In l used) by (apply Hfresh; now left).
    specialize (Hright Hl).
    exists start, (Datatypes.S len). conjs.
    + assumption.
    + rewrite length_app, Hlensl in Hbound.
      simpl in Hbound. enough (len + 1 <= 16)%nat by lia.
      apply Hbound; [intros y [<- | []]; now right |].
      repeat constructor. intros [].
    + rewrite arc_S, <- Hright. now apply Permutation_app_tail.
    + rewrite hd_app_nonempty by assumption.
      destruct Hhd as [H | H]; [now left | right].
      apply in_or_app. now left.
    + left. rewrite last_last, Hright. f_equal. lia.
  - assert (Hn : ~ In n used) by (apply Hfresh; now left).
    assert (Hl : ~ In l used) by (apply Hfresh; right; now left).
    specialize (Hleft Hn). specialize (Hright Hl).
    assert (Hn' : n = pie_last start) by (unfold n; now rewrite Hleft).
    assert (Hl' : l = (pie_last start + Z.of_nat (Datatypes.S len)) mod 16).
    { rewrite Hright. symmetry. now apply pie_last_shift. }
    exists (pie_last start), (Datatypes.S (Datatypes.S len)). conjs.
    + now apply pie_last_range.
    + rewrite length_app, Hlensl in Hbound.
      simpl in Hbound. enough (len + 2 <= 16)%nat by lia.
      apply Hbound; [intros y [<- | [<- | []]]; auto |].
      constructor; [intros [H | []]; congruence |].
      repeat constructor. intros [].
    + rewrite arc_S, arc_cons, <- Hl', <- Hn' by assumption.
      change [n; l] with ([n] ++ [l]). rewrite app_assoc.
      apply Permutation_app_tail.
      apply Permutation_sym, Permutation_cons_app.
      rewrite app_nil_r. now apply Permutation_sym.
    + right. rewrite hd_app_nonempty by assumption.
      apply in_or_app. right. now left.
    + left. change [n; l] with ([n] ++ [l]). rewrite app_assoc, last_last.
      rewrite Hl'. f_equal. lia.
Qed.

Lemma pass_arc_shaped (used used' : list Z) (sets sets' : list (list Z)) :
  pass used sets used' sets' ->
  forall pre,
    claim_inv used (pre ++ sets) ->
    Forall arc_shaped sets -> Forall arc_shaped sets'.
Proof.
  induction 1 as [used | used sl rest used1 sl' used2 rest' Hturn _ IH];
    intros pre Hinv Harcs; [constructor |].
  inversion Harcs as [| ? ? Hsl Hrest]; subst.
  assert (Hin : In sl (pre ++ sl :: rest)) by apply in_elt.
  constructor.
  - eapply turn_arc_shaped; try eassumption.
    + eapply (inv_nonempty _ _ Hinv); eassumption.
    + intros x Hx. eapply (inv_used _ _ Hinv); eassumption.
    + intros x Hx. eapply (inv_range _ _ Hinv); eassumption.
  - pose proof (turn_inv _ _ _ _ _ _ Hinv Hturn) as H1.
    change (pre ++ sl' :: rest) with (pre ++ [sl'] ++ rest) in H1.
    rewrite app_assoc in H1. eapply IH; eassumption.
Qed.

(** X4: whatever the radial positions registered (at least one, repeated or
    not), the slices every item ends up with form one contiguous arc of the
    pie. *)
Theorem slices_form_arcs (items : list RadialMenuItem) (ps : list Position.t) :
  map position items = map Some ps -> ps <> [] ->
  exists items',
    update_slice_membership items = Ok items' /\
    Forall (fun item' => contiguous16 (slices item')) items'.
Proof.
  intros Hps Hne.
  destruct (update_slice_membership_total items ps Hps Hne)
    as (used' & items' & Hup & _).
  destruct (update_slice_membership_Ok _ _ Hup)
    as (ps' & u & _ & Hps' & Hpasses & _).
  exists items'. split; [assumption |].
  assert (H : claim_inv u (map slices items') /\
              Forall arc_shaped (map slices items')).
  { eapply (passes_keep (fun used sets => claim_inv used sets /\
                                         Forall arc_shaped sets));
      [| eassumption |].
    - intros u0 s0 u1 s1 [Hinv Harcs] Hpass. split.
      + exact (pass_inv _ _ _ _ Hpass [] Hinv).
      + exact (pass_arc_shaped _ _ _ _ Hpass [] Hinv Harcs).
    - split; [apply defaults_inv |].
      apply Forall_forall. intros sl Hsl. apply in_map_iff in Hsl.
      destruct Hsl as (p & <- & _). apply slices_table_arc_shaped. }
  destruct H as [_ Harcs]. rewrite Forall_forall in Harcs.
  apply Forall_forall. intros it Hit. apply arc_shaped_contiguous.
  apply Harcs. now apply in_map.
Qed.

Lemma slices_form_arcs_witness :
  exists items',
    update_slice_membership
      (map radial_item [Position.N; Position.NE; Position.N]) = Ok items' /\
    Forall (fun item' => contiguous16 (slices item')) items'.
Proof.
  apply (slices_form_arcs
           (map radial_item [Position.N; Position.NE; Position.N])
           [Position.N; Position.NE; Position.N]).
  - reflexivity.
  - discriminate.
Defined.

(** ** The slices depend on the positions only *)

Lemma claim_neighbours_slices (used used' : list Z) (a b a' : RadialMenuItem) :
  slices a = slices b ->
  claim_neighbours used a = Ok (used', a') ->
  exists b', claim_neighbours used b = Ok (used', b') /\ slices b' = slices a'.
Proof.
  unfold claim_neighbours. intros <-.
  destruct (slices a) as [| first rest]; [discriminate |].
  destruct (negb (mem (pie_last first) used));
    match goal with
    | |- context [negb (mem ?l ?u)] => destruct (negb (mem l u))
    end;
    intros H; injection H as <- <-; eexists; split; reflexivity.
Qed.

Lemma claim_pass_slices (a : list RadialMenuItem) :
  forall b used used' a',
    map slices a = map slices b ->
    claim_pass used a = Ok (used', a') ->
    exists b', claim_pass used b = Ok (used', b') /\ map slices b' = map slices a'.
Proof.
  induction a as [| x a IH]; intros [| y b] used used' a' Heq H;
    try discriminate.
  - simpl in H. injection H as <- <-. exists []. split; reflexivity.
  - simpl in Heq. injection Heq as Hxy Hab. simpl in H.
    destruct (claim_neighbours used x) as [[u1 x'] | e |] eqn:Hcn;
      cbn [bind] in H; try discriminate.
    destruct (claim_pass u1 a) as [[u2 r2] | e |] eqn:Hcp;
      cbn [bind] in H; try discriminate.
    injection H as <- <-.
    destruct (claim_neighbours_slices _ _ _ _ _ Hxy Hcn) as (y' & Hy & Hsl).
    destruct (IH _ _ _ _ Hab Hcp) as (b' & Hb & Hsls).
    exists (y' :: b'). simpl. rewrite Hy. cbn [bind]. rewrite Hb. cbn [bind].
    split; [reflexivity |]. simpl. now rewrite Hsl, Hsls.
Qed.

Lemma claim_loop_slices (fuel : nat) :
  forall a b used used' a',
    map slices a = map slices b ->
    claim_loop fuel used a = Ok (used', a') ->
    exists b', claim_loop fuel used b = Ok (used', b') /\
               map slices b' = map slices a'.
Proof.
  induction fuel as [| fuel IH]; intros a b used used' a' Heq H; simpl in *.
  - destruct (Z.of_nat (length used) <? 16); [discriminate |].
    injection H as <- <-. exists b. split; [reflexivity | now symmetry].
  - destruct (Z.of_nat (length used) <? 16).
    + destruct (claim_pass used a) as [[u1 a1] | e |] eqn:Hcp;
        cbn [bind] in H; try discriminate.
      destruct (claim_pass_slices _ _ _ _ _ Heq Hcp) as (b1 & Hb1 & Hsl).
      rewrite Hb1. cbn [bind]. apply (IH a1); [now symmetry | assumption].
    + injection H as <- <-. exists b. split; [reflexivity | now symmetry].
Qed.

(** Two lists of items at the same positions get the same slices. *)
Lemma update_slice_membership_positions (a b a' : list RadialMenuItem) :
  map position a = map position b ->
  update_slice_membership a = Ok a' ->
  exists b', update_slice_membership b = Ok b' /\ map slices b' = map slices a'.
Proof.
  intros Hpos H.
  unfold update_slice_membership, update_slice_membership_fuel in *.
  destruct (reset_slices a) as [[u0 a0] | e |] eqn:Hra;
    cbn [bind] in H; try discriminate.
  destruct (claim_loop 16 u0 a0) as [[u1 a1] | e |] eqn:Hloop;
    cbn [bind] in H; try discriminate.
  injection H as <-.
  destruct (reset_slices_ok_radial _ _ _ Hra) as (ps & Hps).
  destruct (reset_slices_radial a ps Hps) as (a0' & Hra' & Hsla & _).
  rewrite Hra in Hra'. injection Hra' as -> ->.
  rewrite Hpos in Hps.
  destruct (reset_slices_radial b ps Hps) as (b0 & Hrb & Hslb & _).
  rewrite Hrb. cbn [bind].
  destruct (claim_loop_slices 16 a0' b0 _ _ _ (eq_trans Hsla (eq_sym Hslb)) Hloop)
    as (b1 & Hb1 & Hsl).
  rewrite Hb1. cbn [bind]. exists b1. split; [reflexivity | assumption].
Qed.

Lemma items_eq (a b : list RadialMenuItem) :
  map position a = map position b -> map p_rect a = map p_rect b ->
  map slices a = map slices b -> map function a = map function b ->
  a = b.
Proof.
  revert b. induction a as [| x a IH]; intros [| y b] Hp Hr Hs Hf;
    try discriminate; [reflexivity |].
  simpl in *. injection Hp as Hp Hp'. injection Hr as Hr Hr'.
  injection Hs as Hs Hs'. injection Hf as Hf Hf'.
  f_equal; [| now apply IH].
  destruct x, y. simpl in *. congruence.
Qed.

(** X5: recomputing the slices of items that already carry the result of a
    recomputation changes nothing. *)
Theorem update_slice_membership_idempotent (items items' : list RadialMenuItem) :
  update_slice_membership items = Ok items' ->
  update_slice_membership items' = Ok items'.
Proof.
  intros H.
  destruct (update_slice_membership_Ok _ _ H)
    as (ps & u & _ & _ & _ & _ & Hp & Hr & Hf).
  destruct (update_slice_membership_positions items items' items' (eq_sym Hp) H)
    as (b & Hb & Hsl).
  destruct (update_slice_membership_Ok _ _ Hb)
    as (ps' & u' & _ & _ & _ & _ & Hp' & Hr' & Hf').
  rewrite Hb. f_equal. now apply items_eq.
Qed.

Lemma update_slice_membership_idempotent_witness :
  update_slice_membership
    [mkItem (Some Position.N) (mkQRect 0 0 0 0) [11; 12; 10; 13; 14; 15; 0; 1] None;
     mkItem (Some Position.S) (mkQRect 0 0 0 0) [3; 4; 2; 5; 6; 7; 8; 9] None]
  = Ok
    [mkItem (Some Position.N) (mkQRect 0 0 0 0) [11; 12; 10; 13; 14; 15; 0; 1] None;
     mkItem (Some Position.S) (mkQRect 0 0 0 0) [3; 4; 2; 5; 6; 7; 8; 9] None].
Proof.
  apply (update_slice_membership_idempotent
           (map radial_item [Position.N; Position.S])).
  vm_compute. reflexivity.
Defined.

(** ** Registration, one item after the other *)

Lemma radial_positions (its : list RadialMenuItem) :
  forallb is_radial its = true -> exists ps, map position its = map Some ps.
Proof.
  induction its as [| it its IH]; simpl; intros H.
  - exists []. reflexivity.
  - apply andb_true_iff in H. destruct H as [Hit Hits].
    destruct (IH Hits) as (ps & Hps). unfold is_radial in Hit.
    destruct (position it) as [p |] eqn:Hp; [| discriminate].
    exists (p :: ps). simpl. now rewrite Hps.
Qed.

Lemma positions_radial (its : list RadialMenuItem) (ps : list Position.t) :
  map position its = map Some ps -> forallb is_radial its = true.
Proof.
  revert ps. induction its as [| it its IH]; intros [| p ps] H;
    try discriminate; [reflexivity |].
  simpl in H. injection H as Hp Hrest. simpl. unfold is_radial at 1.
  rewrite Hp. simpl. eauto.
Qed.

Lemma filter_column_radial (its : list RadialMenuItem) :
  forallb is_radial its = true -> filter is_column its = [].
Proof.
  induction its as [| it its IH]; simpl; intros H; [reflexivity |].
  apply andb_true_iff in H. destruct H as [Hit Hits].
  unfold is_column at 1. rewrite Hit. simpl. auto.
Qed.

Section RegistrationSteps.
Context {tk : Toolkit}.

(** What a successful [add_item] did. *)
Lemma add_item_Ok (m m' : RadialMenu) (item : RadialMenuItem) :
  add_item m item = Ok m' ->
  map position (items m') = map position (items m) ++ [position item] /\
  (is_radial item = true ->
   forallb is_radial (items m) = true /\
   column_widget_items m' = column_widget_items m /\
   column_widget_rects m' = column_widget_rects m) /\
  (is_radial item = false ->
   exists item',
     position item' = None /\
     items m' = items m ++ [item'] /\
     column_widget_items m' = column_widget_items m ++ [item'] /\
     column_widget_rects m' = column_widget_rects m ++ [p_rect item']).
Proof.
  unfold add_item, is_radial. destruct (position item) as [p |] eqn:Hp.
  - unfold add_radial_item. cbn [items with_items].
    destruct (update_slice_membership (items m ++ [item])) as [its | e |] eqn:Hup;
      cbn [bind]; try discriminate.
    intros H. injection H as <-.
    destruct (update_slice_membership_Ok _ _ Hup)
      as (ps & u & _ & Hps & _ & _ & Hpos & _).
    conjs; try discriminate.
    + simpl. rewrite update_last_map by reflexivity.
      rewrite Hpos, map_app. simpl. now rewrite Hp.
    + intros _. conjs; try reflexivity.
      apply positions_radial in Hps. rewrite forallb_app in Hps.
      now apply andb_true_iff in Hps.
  - unfold add_column_item. intros H. injection H as <-. simpl.
    rewrite !update_last_app, map_app. simpl. rewrite ?Hp.
    conjs; try discriminate; [reflexivity |].
    intros _. eexists. conjs; try reflexivity. exact Hp.
Qed.

(** X6: [add_item] has two outcomes only.  It raises [KeyError] exactly
    when a radial item is added to a menu that holds a column item;
    otherwise it returns, with the new item last and the positions of the
    others as they were. *)
Theorem add_item_outcome (m : RadialMenu) (item : RadialMenuItem) :
  (add_item m item = Raise KeyError /\
   is_radial item = true /\
   exists c, In c (items m) /\ position c = None) \/
  (exists m',
     add_item m item = Ok m' /\
     map position (items m') = map position (items m) ++ [position item] /\
     (is_radial item = false \/ forallb is_radial (items m) = true)).
Proof.
  destruct (is_radial item) eqn:Hrad.
  - destruct (forallb is_radial (items m)) eqn:Hall.
    + right. destruct (radial_positions _ Hall) as (ps & Hps).
      unfold is_radial in Hrad.
      destruct (position item) as [p |] eqn:Hp; [| discriminate].
      destruct (add_item_radial m item ps p Hps Hp) as (m' & Hadd & _).
      exists m'. split; [assumption |].
      destruct (add_item_Ok _ _ _ Hadd) as (Hpos & _).
      rewrite ?Hp in Hpos. auto.
    + left. destruct (forallb_false_witness _ _ Hall) as (c & Hc & Hcol).
      unfold is_radial in Hcol, Hrad.
      destruct (position c) eqn:Hpc; [discriminate |].
      destruct (position item) as [p |] eqn:Hp; [| discriminate].
      conjs; [| reflexivity | eauto].
      unfold add_item, add_radial_item. rewrite Hp. cbn [items with_items].
      unfold update_slice_membership, update_slice_membership_fuel.
      rewrite reset_slices_column; [reflexivity |].
      exists c. split; [apply in_or_app; now left | assumption].
  - right. unfold is_radial in Hrad.
    destruct (position item) as [p |] eqn:Hp; [discriminate |].
    unfold add_item. rewrite Hp. unfold add_column_item.
    eexists. split; [reflexivity |]. simpl.
    rewrite !update_last_app, map_app. simpl. rewrite Hp. auto.
Qed.

Lemma add_items_after_column (its : list RadialMenuItem) :
  forall m m',
    add_items m its = Ok m' ->
    forallb is_radial (items m) = false ->
    forallb is_column its = true.
Proof.
  induction its as [| it its IH]; intros m m' H Hcol; [reflexivity |].
  simpl in H. destruct (add_item m it) as [m1 | e |] eqn:Hadd;
    cbn [bind] in H; try discriminate.
  destruct (add_item_Ok _ _ _ Hadd) as (Hpos & Hrad & Hcolumn).
  simpl. unfold is_column at 1. destruct (is_radial it) eqn:Hit.
  - destruct (Hrad eq_refl) as (Hall & _). congruence.
  - simpl. apply (IH m1 m' H).
    destruct (Hcolumn eq_refl) as (it' & Hnone & Hitems & _).
    rewrite Hitems, forallb_app, Hcol. reflexivity.
Qed.

Lemma add_items_split (its : list RadialMenuItem) :
  forall m m',
    add_items m its = Ok m' ->
    forallb is_radial (items m) = true ->
    exists rs cs,
      its = rs ++ cs /\ forallb is_radial rs = true /\
      forallb is_column cs = true.
Proof.
  induction its as [| it its IH]; intros m m' H Hall.
  - exists [], []. repeat split.
  - simpl in H. destruct (add_item m it) as [m1 | e |] eqn:Hadd;
      cbn [bind] in H; try discriminate.
    destruct (add_item_Ok _ _ _ Hadd) as (Hpos & Hrad & Hcolumn).
    destruct (is_radial it) eqn:Hit.
    + assert (Hall1 : forallb is_radial (items m1) = true).
      { destruct (radial_positions _ Hall) as (ps & Hps).
        unfold is_radial in Hit.
        destruct (position it) as [p |] eqn:Hp; [| discriminate].
        apply (positions_radial _ (ps ++ [p])).
        rewrite Hpos, Hps, map_app. reflexivity. }
      destruct (IH m1 m' H Hall1) as (rs & cs & -> & Hrs & Hcs).
      exists (it :: rs), cs. simpl. rewrite Hit. auto.
    + exists [], (it :: its). conjs; try reflexivity.
      simpl. unfold is_column at 1. rewrite Hit. simpl.
      apply (add_items_after_column its m1 m' H).
      destruct (Hcolumn eq_refl) as (it' & Hnone & Hitems & _).
      rewrite Hitems, forallb_app. simpl. unfold is_radial at 2.
      rewrite Hnone. simpl. apply andb_false_r.
Qed.

Lemma forallb_column_Forall (cs : list RadialMenuItem) :
  forallb is_column cs = true -> Forall (fun c => position c = None) cs.
Proof.
  rewrite forallb_forall. intros H. apply Forall_forall. intros c Hc.
  specialize (H c Hc). unfold is_column, is_radial in H.
  destruct (position c); [discriminate | reflexivity].
Qed.

Lemma add_items_radial_from_init (rs : list RadialMenuItem) :
  forallb is_radial rs = true -> exists m, add_items init rs = Ok m.
Proof.
  intros Hrs. destruct rs as [| r rs]; [exists init; reflexivity |].
  destruct (radial_positions _ Hrs) as (ps & Hps).
  destruct (add_items_radial (r :: rs) init [] ps eq_refl Hps)
    as (m & Hm & _); [discriminate | eauto].
Qed.

(** X7: from an empty menu a sequence of registrations succeeds exactly
    when every radial item comes before every column item. *)
Theorem registration_succeeds_iff (its : list RadialMenuItem) :
  (exists m, add_items init its = Ok m) <->
  (exists rs cs,
     its = rs ++ cs /\ forallb is_radial rs = true /\
     forallb is_column cs = true).
Proof.
  split.
  - intros (m & H). now apply (add_items_split its init m).
  - intros (rs & cs & -> & Hrs & Hcs).
    apply forallb_column_Forall in Hcs.
    destruct (add_items_radial_from_init rs Hrs) as (m1 & Hm1).
    destruct (add_items_column cs m1 Hcs) as (m & Hm & _).
    exists m. rewrite add_items_app, Hm1. exact Hm.
Qed.

Lemma add_item_column_in_step (m m' : RadialMenu) (item : RadialMenuItem) :
  add_item m item = Ok m' -> column_in_step m -> column_in_step m'.
Proof.
  intros Hadd [Hitems Hrects].
  destruct (add_item_Ok _ _ _ Hadd) as (Hpos & Hrad & Hcolumn).
  destruct (is_radial item) eqn:Hit.
  - destruct (Hrad eq_refl) as (Hall & Hci & Hcr).
    assert (Hall' : forallb is_radial (items m') = true).
    { destruct (radial_positions _ Hall) as (ps & Hps).
      unfold is_radial in Hit.
      destruct (position item) as [p |] eqn:Hp; [| discriminate].
      apply (positions_radial _ (ps ++ [p])).
      rewrite Hpos, Hps, map_app. reflexivity. }
    split.
    + rewrite Hci, Hitems, !filter_column_radial by assumption. reflexivity.
    + rewrite Hcr, Hci. assumption.
  - destruct (Hcolumn eq_refl) as (it' & Hnone & Hits & Hci & Hcr).
    split.
    + rewrite Hci, Hits, filter_app, Hitems. simpl.
      unfold is_column at 3, is_radial. rewrite Hnone. reflexivity.
    + rewrite Hcr, Hci, map_app, Hrects. reflexivity.
Qed.

Lemma add_items_registry (its : list RadialMenuItem) :
  forall m m',
    add_items m its = Ok m' -> column_in_step m ->
    map position (items m') = map position (items m) ++ map position its /\
    column_in_step m'.
Proof.
  induction its as [| it its IH]; intros m m' H Hstep.
  - simpl in H. injection H as <-. rewrite app_nil_r. auto.
  - simpl in H. destruct (add_item m it) as [m1 | e |] eqn:Hadd;
      cbn [bind] in H; try discriminate.
    destruct (IH m1 m' H (add_item_column_in_step _ _ _ Hadd Hstep))
      as (Hpos & Hstep').
    split; [| assumption].
    destruct (add_item_Ok _ _ _ Hadd) as (Hpos1 & _).
    rewrite Hpos, Hpos1, <- app_assoc. reflexivity.
Qed.

(** X8: after any successful sequence of registrations from an empty menu,
    [self.items] holds the registered items at their positions in
    registration order, the column widget's items are the column items of
    [self.items] in order, and its rectangles are theirs, one for one. *)
Theorem registration_keeps_registry (its : list RadialMenuItem)
  (m : RadialMenu) :
  add_items init its = Ok m ->
  map position (items m) = map position its /\
  column_widget_items m = filter is_column (items m) /\
  column_widget_rects m = map p_rect (column_widget_items m) /\
  column_consistent m.
Proof.
  intros H.
  destruct (add_items_registry its init m H) as (Hpos & Hitems & Hrects).
  { split; reflexivity. }
  conjs; try assumption.
  unfold column_consistent. rewrite Hrects. apply length_map.
Qed.
End RegistrationSteps.

Lemma registration_keeps_registry_witness :
  exists m,
    @add_items sample_toolkit init
      [radial_item Position.N; column_item; column_item] = Ok m /\
    map position (items m) =
      map position [radial_item Position.N; column_item; column_item] /\
    column_widget_items m = filter is_column (items m) /\
    column_widget_rects m = map p_rect (column_widget_items m) /\
    column_consistent m.
Proof.
  eexists. split; [vm_compute; reflexivity |].
  apply (@registration_keeps_registry sample_toolkit
           [radial_item Position.N; column_item; column_item]).
  vm_compute. reflexivity.
Defined.

(** X9: registering radial items one at a time, with a recomputation after
    each, leaves them the slices that one recomputation over the whole list
    gives. *)
Theorem registration_slices_from_positions (tk : Toolkit)
  (rs : list RadialMenuItem) (ps : list Position.t) :
  map position rs = map Some ps -> ps <> [] ->
  exists m its',
    add_items init rs = Ok m /\
    update_slice_membership rs = Ok its' /\
    map slices (items m) = map slices its'.
Proof.
  intros Hps Hne.
  assert (Hrs : rs <> []) by (intros ->; destruct ps; [congruence | discriminate]).
  destruct (update_slice_membership_total rs ps Hps Hne) as (u & its' & Hup & _).
  destruct (exists_last Hrs) as (prefix & r & ->).
  pose proof (positions_radial _ _ Hps) as Hall.
  rewrite forallb_app in Hall. apply andb_true_iff in Hall.
  destruct Hall as [Hprefix Hr].
  destruct (add_items_radial_from_init prefix Hprefix) as (m1 & Hm1).
  destruct (add_items_registry prefix init m1 Hm1) as (Hpos1 & _);
    [split; reflexivity |].
  simpl in Hpos1.
  assert (Hsame : map position (items m1 ++ [r]) = map position (prefix ++ [r])).
  { rewrite !map_app, Hpos1. reflexivity. }
  destruct (update_slice_membership_positions _ _ _ (eq_sym Hsame) Hup)
    as (its1 & Hup1 & Hsl).
  assert (Hr' : exists p, position r = Some p).
  { simpl in Hr. unfold is_radial in Hr.
    destruct (position r); [eauto | discriminate]. }
  destruct Hr' as (p & Hp).
  eexists _, its'. rewrite add_items_app, Hm1. cbn [bind add_items].
  unfold add_item, add_radial_item. rewrite Hp. cbn [items with_items].
  rewrite Hup1. cbn [bind]. conjs; try reflexivity; try assumption.
  simpl. rewrite update_last_map by reflexivity. assumption.
Qed.

Lemma registration_slices_from_positions_witness :
  exists m its',
    @add_items sample_toolkit init
      [radial_item Position.N; radial_item Position.E; radial_item Position.N]
      = Ok m /\
    update_slice_membership
      [radial_item Position.N; radial_item Position.E; radial_item Position.N]
      = Ok its' /\
    map slices (items m) = map slices its'.
Proof.
  apply (registration_slices_from_positions sample_toolkit
           [radial_item Position.N; radial_item Position.E; radial_item Position.N]
           [Position.N; Position.E; Position.N]).
  - reflexivity.
  - discriminate.
Defined.

(** ** More on selection *)

Lemma find_snoc {A : Type} (f : A -> bool) (l : list A) (x : A) :
  find f (l ++ [x]) =
  match find f l with
  | Some y => Some y
  | None => if f x then Some x else None
  end.
Proof.
  induction l as [| a l IH]; simpl; [reflexivity |].
  destruct (f a); [reflexivity | assumption].
Qed.

Lemma unique_owner (its : list RadialMenuItem) (k : Z) (a b : RadialMenuItem) :
  NoDup (concat (map slices its)) ->
  In a its -> In b its -> In k (slices a) -> In k (slices b) -> a = b.
Proof.
  induction its as [| x its IH]; intros Hnd Ha Hb Hka Hkb; [contradiction |].
  simpl in Hnd. apply NoDup_app_remove_l in Hnd as Hnd'.
  assert (Hcross : forall y, In y its -> In k (slices x) -> In k (slices y) -> False).
  { intros y Hy Hx Hky.
    assert (Hin : In k (concat (map slices its))).
    { apply in_concat. exists (slices y). split; [now apply in_map | assumption]. }
    clear -Hnd Hx Hin. induction (slices x) as [| z sl IHsl]; [contradiction |].
    simpl in Hnd. inversion Hnd as [| ? ? Hnot Hrest]; subst.
    destruct Hx as [-> | Hx]; [| auto].
    apply Hnot. apply in_or_app. now right. }
  destruct Ha as [<- | Ha], Hb as [<- | Hb].
  - reflexivity.
  - exfalso. eapply Hcross; eassumption.
  - exfalso. eapply Hcross; eassumption.
  - now apply IH.
Qed.

Section MoreSelection.
Context {tk : Toolkit}.

Lemma radial_scan_In (its : list RadialMenuItem) (cursor_pos : QPoint)
  (rad_slice : Z) :
  forall active it,
    radial_scan its cursor_pos rad_slice active = Some it ->
    active = Some it \/ (In it its /\ is_radial it = true).
Proof.
  induction its as [| x its IH]; intros active it H; simpl in H; [now left |].
  destruct (position x) as [p |] eqn:Hp.
  - assert (Hx : is_radial x = true) by (unfold is_radial; now rewrite Hp).
    destruct (contains (p_rect x) cursor_pos).
    + injection H as <-. right. split; [now left | assumption].
    + destruct (mem rad_slice (slices x)); apply IH in H.
      * destruct H as [H | [H1 H2]].
        -- injection H as <-. right. split; [now left | assumption].
        -- right. split; [now right | assumption].
      * destruct H as [H | [H1 H2]]; [now left |].
        right. split; [now right | assumption].
  - apply IH in H. destruct H as [H | [H1 H2]]; [now left |].
    right. split; [now right | assumption].
Qed.

Lemma column_scan_In (rects : list QRect) :
  forall its cursor_pos it,
    column_scan rects its cursor_pos = Ok (Some it) -> In it its.
Proof.
  induction rects as [| r rects IH]; intros its cursor_pos it H; simpl in H;
    [discriminate |].
  destruct (contains r cursor_pos).
  - destruct its as [| x its]; [discriminate |]. injection H as <-. now left.
  - apply IH in H. destruct its; [contradiction | now right].
Qed.

(** What [updateWidget] returns is the menu it was given but for the cursor,
    the column switch and the selection. *)
Lemma updateWidget_Ok (m m' : RadialMenu) (cursor : QPoint) :
  updateWidget m cursor = Ok m' ->
  m' = with_selection m cursor
         (if negb (gesture m) && truthy rect_bool (column_widget_rect m)
          then true else column_widget_enabled m)
         (activeItem m').
Proof.
  unfold updateWidget.
  destruct (int_ _) as [k | e |]; cbn [bind]; try discriminate.
  destruct (20 <? math_hypot _ _)%float; [| intros H; now injection H as <-].
  destruct (negb (gesture m) && truthy rect_bool (column_widget_rect m)).
  - destruct (column_widget_rect m) as [rect |].
    + destruct (contains rect (mapFromParent cursor)).
      * destruct (column_scan _ _ _) as [[it |] | e |]; cbn [bind];
          try discriminate; intros H; now injection H as <-.
      * cbn [bind]. intros H; now injection H as <-.
    + cbn [bind]. intros H; now injection H as <-.
  - cbn [bind]. intros H; now injection H as <-.
Qed.

(** X10: whatever [updateWidget] selects is an item of the menu: a radial
    item of [self.items], or, only when gesture mode is over, an item of the
    column widget. *)
Theorem selection_is_registered (m m' : RadialMenu) (cursor : QPoint)
  (it : RadialMenuItem) :
  updateWidget m cursor = Ok m' -> activeItem m' = Some it ->
  (In it (items m) /\ is_radial it = true) \/
  (gesture m = false /\ In it (column_widget_items m)).
Proof.
  unfold updateWidget.
  destruct (int_ _) as [k | e |]; cbn [bind]; try discriminate.
  destruct (20 <? math_hypot _ _)%float;
    [| intros H; injection H as <-; discriminate].
  assert (Hscan : forall pos,
    activeItem (with_selection m cursor
                  (if negb (gesture m) && truthy rect_bool (column_widget_rect m)
                   then true else column_widget_enabled m)
                  (radial_scan (items m) pos k None)) = Some it ->
    In it (items m) /\ is_radial it = true).
  { intros pos H. simpl in H. apply radial_scan_In in H.
    destruct H as [H | H]; [discriminate | assumption]. }
  destruct (gesture m) eqn:Hg; simpl.
  - intros H Hact. injection H as <-. left. eapply Hscan. eassumption.
  - destruct (truthy rect_bool (column_widget_rect m)) eqn:Htruth.
    + destruct (column_widget_rect m) as [rect |]; [| discriminate].
      destruct (contains rect (mapFromParent cursor)).
      * destruct (column_scan _ _ _) as [[x |] | e |] eqn:Hcs; cbn [bind];
          try discriminate; intros H Hact; injection H as <-.
        -- simpl in Hact. injection Hact as <-. right.
           split; [reflexivity |]. eapply column_scan_In. eassumption.
        -- left. apply radial_scan_In in Hact.
           destruct Hact as [H | H]; [discriminate | assumption].
      * cbn [bind]. intros H Hact. injection H as <-. left.
        apply radial_scan_In in Hact.
        destruct Hact as [H | H]; [discriminate | assumption].
    + intros H Hact. injection H as <-. left.
      apply radial_scan_In in Hact.
      destruct Hact as [H | H]; [discriminate | assumption].
Qed.

(** With no rectangle hit the later slice matches override the earlier. *)
Lemma radial_scan_slices (its : list RadialMenuItem) (cursor_pos : QPoint)
  (rad_slice : Z) :
  (forall it, In it its -> is_radial it = true ->
              contains (p_rect it) cursor_pos = false) ->
  forall active,
    radial_scan its cursor_pos rad_slice active =
    match find (owns rad_slice) (rev its) with
    | Some it => Some it
    | None => active
    end.
Proof.
  induction its as [| x its IH]; intros Hrect active; [reflexivity |].
  assert (Hrect' : forall it, In it its -> is_radial it = true ->
                              contains (p_rect it) cursor_pos = false).
  { intros it Hit. apply Hrect. now right. }
  simpl. rewrite find_snoc. unfold owns at 2, is_radial.
  pose proof (Hrect x (or_introl eq_refl)) as Hx. unfold is_radial in Hx.
  destruct (position x) as [p |]; simpl.
  - rewrite Hx by reflexivity.
    destruct (mem rad_slice (slices x)); rewrite IH by assumption;
      destruct (find (owns rad_slice) (rev its)); reflexivity.
  - rewrite IH by assumption.
    destruct (find (owns rad_slice) (rev its)); reflexivity.
Qed.

(** X11: outside the dead zone, when the column is not scanned and no
    radial rectangle holds the cursor, the selection is the last registered
    radial item whose slices hold the cursor's slice, and nothing when no
    radial item holds it. *)
Theorem slice_selects_last_owner (m : RadialMenu) (cursor : QPoint)
  (rad_slice : Z) :
  (20 <? math_hypot (px (startPos m) - px cursor)
                    (py (startPos m) - py cursor))%float = true ->
  int_ (angleFromPoints (startPos m) cursor / 22.5)%float = Ok rad_slice ->
  gesture m = true \/
  (forall rect, column_widget_rect m = Some rect ->
                contains rect (mapFromParent cursor) = false) ->
  (forall it, In it (items m) -> is_radial it = true ->
              contains (p_rect it) (mapFromParent cursor) = false) ->
  exists m',
    updateWidget m cursor = Ok m' /\
    activeItem m' = find (owns rad_slice) (rev (items m)).
Proof.
  intros Hlen Hint Hcol Hrect.
  destruct (updateWidget_radial m cursor rad_slice Hlen Hint Hcol)
    as (m' & Hup & Hact).
  exists m'. split; [assumption |].
  rewrite Hact, radial_scan_slices by assumption.
  destruct (find _ _); reflexivity.
Qed.
End MoreSelection.

Lemma selection_is_registered_witness :
  (In (mkItem (Some Position.S) (mkQRect 100 100 50 50) [3; 4] None)
      (items two_item_menu) /\
   is_radial (mkItem (Some Position.S) (mkQRect 100 100 50 50) [3; 4] None) = true) \/
  (gesture two_item_menu = false /\
   In (mkItem (Some Position.S) (mkQRect 100 100 50 50) [3; 4] None)
      (column_widget_items two_item_menu)).
Proof.
  apply (@selection_is_registered sample_toolkit two_item_menu
           (with_selection two_item_menu (mkQPoint 120 120) true
              (Some (mkItem (Some Position.S) (mkQRect 100 100 50 50) [3; 4] None)))
           (mkQPoint 120 120)).
  - vm_compute. reflexivity.
  - reflexivity.
Defined.

Lemma slice_selects_last_owner_witness :
  exists m',
    @updateWidget sample_toolkit two_item_menu (mkQPoint 50 0) = Ok m' /\
    activeItem m' = find (owns 0) (rev (items two_item_menu)).
Proof.
  apply (@slice_selects_last_owner sample_toolkit two_item_menu (mkQPoint 50 0) 0).
  - vm_compute. reflexivity.
  - vm_compute. reflexivity.
  - left. reflexivity.
  - intros it [<- | [<- | []]] _; reflexivity.
Defined.

Section SelectionOrder.
Context {tk : Toolkit}.

(** X12: outside the dead zone and when the column is not scanned (in
    gesture mode, or with the cursor outside the column rectangle), when
    several radial items' rectangles hold the cursor, the one registered
    first is selected, whatever the slices say. *)
Theorem first_rectangle_wins (m : RadialMenu) (cursor : QPoint)
  (rad_slice : Z) (before after : list RadialMenuItem)
  (first : RadialMenuItem) :
  items m = before ++ first :: after ->
  is_radial first = true ->
  contains (p_rect first) (mapFromParent cursor) = true ->
  (forall it, In it before -> is_radial it = true ->
              contains (p_rect it) (mapFromParent cursor) = false) ->
  (20 <? math_hypot (px (startPos m) - px cursor)
                    (py (startPos m) - py cursor))%float = true ->
  int_ (angleFromPoints (startPos m) cursor / 22.5)%float = Ok rad_slice ->
  gesture m = true \/
  (forall rect, column_widget_rect m = Some rect ->
                contains rect (mapFromParent cursor) = false) ->
  exists m', updateWidget m cursor = Ok m' /\ activeItem m' = Some first.
Proof.
  intros Hitems Hrad Hin Hpre Hlen Hint Hcol.
  destruct (updateWidget_radial m cursor rad_slice Hlen Hint Hcol)
    as (m' & Hup & Hact).
  exists m'. split; [assumption |]. rewrite Hact, Hitems.
  now apply radial_scan_rect.
Qed.

Lemma column_scan_first (pre : list QRect) :
  forall ipre r post it ipost cursor_pos,
    length pre = length ipre ->
    (forall r', In r' pre -> contains r' cursor_pos = false) ->
    contains r cursor_pos = true ->
    column_scan (pre ++ r :: post) (ipre ++ it :: ipost) cursor_pos
    = Ok (Some it).
Proof.
  induction pre as [| r0 pre IH];
    intros [| i0 ipre] r post it ipost pos Hlen Hpre Hr; try discriminate.
  - simpl. now rewrite Hr.
  - simpl. rewrite (Hpre r0 (or_introl eq_refl)).
    apply IH; [simpl in Hlen; lia | | assumption].
    intros r' Hr'. apply Hpre. now right.
Qed.

(** X13: once gesture mode is over, a cursor outside the dead zone, inside
    the column rectangle and inside the rectangle of a column item selects
    the first such column item and enables the column widget, whatever the
    radial items' rectangles and slices are. *)
Theorem column_hit_beats_radial (m : RadialMenu) (cursor : QPoint)
  (rad_slice : Z) (rect r : QRect) (pre post : list QRect)
  (it : RadialMenuItem) (ipre ipost : list RadialMenuItem) :
  gesture m = false ->
  column_widget_rect m = Some rect -> rect_bool rect = true ->
  contains rect (mapFromParent cursor) = true ->
  column_widget_rects m = pre ++ r :: post ->
  column_widget_items m = ipre ++ it :: ipost ->
  length pre = length ipre ->
  (forall r', In r' pre -> contains r' (column_mapFromGlobal cursor) = false) ->
  contains r (column_mapFromGlobal cursor) = true ->
  (20 <? math_hypot (px (startPos m) - px cursor)
                    (py (startPos m) - py cursor))%float = true ->
  int_ (angleFromPoints (startPos m) cursor / 22.5)%float = Ok rad_slice ->
  exists m',
    updateWidget m cursor = Ok m' /\
    activeItem m' = Some it /\ column_widget_enabled m' = true.
Proof.
  intros Hg Hrect Htruth Hin Hrects Hitems Hlen Hpre Hr Hout Hint.
  unfold updateWidget. rewrite Hint. cbn [bind].
  rewrite Hout, Hg, Hrect. simpl. rewrite Htruth, Hin, Hrects, Hitems.
  rewrite column_scan_first by assumption. cbn [bind].
  eexists. split; [reflexivity |]. split; reflexivity.
Qed.

(** [updateWidget] does not look at the cursor, the column switch and the
    selection of the menu it is given. *)
Lemma updateWidget_with_selection (m : RadialMenu) (c0 cursor : QPoint)
  (e0 : bool) (a0 : option RadialMenuItem) :
  updateWidget (with_selection m c0 e0 a0) cursor =
  match updateWidget m cursor with
  | Ok m1 =>
      Ok (with_selection m cursor
            (if negb (gesture m) && truthy rect_bool (column_widget_rect m)
             then true else e0)
            (activeItem m1))
  | Raise e => Raise e
  | OutOfFuel => OutOfFuel
  end.
Proof.
  unfold updateWidget. simpl.
  destruct (int_ _) as [k | e |]; cbn [bind]; try reflexivity.
  destruct (20 <? math_hypot _ _)%float; [| reflexivity].
  destruct (negb (gesture m) && truthy rect_bool (column_widget_rect m)).
  - destruct (column_widget_rect m) as [rect |]; [| reflexivity].
    destruct (contains rect (mapFromParent cursor)); [| reflexivity].
    destruct (column_scan _ _ _) as [[it |] | e |]; reflexivity.
  - reflexivity.
Qed.

(** X14: resolving the selection again at the same cursor changes
    nothing. *)
Theorem updateWidget_idempotent (m m' : RadialMenu) (cursor : QPoint) :
  updateWidget m cursor = Ok m' -> updateWidget m' cursor = Ok m'.
Proof.
  intros H. pose proof (updateWidget_Ok _ _ _ H) as Hshape.
  rewrite Hshape. rewrite updateWidget_with_selection, H. f_equal.
  destruct (negb (gesture m) && truthy rect_bool (column_widget_rect m));
    reflexivity.
Qed.

(** X15: after [popup] on a menu whose items were registered at pairwise
    distinct positions, a cursor outside the dead zone and outside every
    item's rectangle, in any direction whose slice is between 0 and 15,
    selects an item: the only one that owns the slice. *)
Theorem every_slice_selects_its_owner (rs : list RadialMenuItem)
  (ps : list Position.t) (m0 : RadialMenu) (pos0 cursor : QPoint)
  (rad_slice : Z) :
  map position rs = map Some ps -> NoDup ps -> ps <> [] ->
  add_items init rs = Ok m0 ->
  (20 <? math_hypot (px pos0 - px cursor) (py pos0 - py cursor))%float = true ->
  int_ (angleFromPoints pos0 cursor / 22.5)%float = Ok rad_slice ->
  in_range rad_slice ->
  (forall it, In it (items m0) ->
              contains (p_rect it) (mapFromParent cursor) = false) ->
  exists m' it,
    updateWidget (popup m0 pos0) cursor = Ok m' /\
    activeItem m' = Some it /\
    In it (items m0) /\ In rad_slice (slices it) /\
    (forall it', In it' (items m0) -> In rad_slice (slices it') -> it' = it).
Proof.
  intros Hps Hnd Hne Hadd Hout Hint Hk Hrect.
  assert (Hrs : rs <> []) by (intros ->; destruct ps; [congruence | discriminate]).
  destruct (add_items_radial rs init [] ps eq_refl Hps Hrs)
    as (m1 & Hm1 & Hpos & before & after0 & used & Hasg & Hsl).
  rewrite Hadd in Hm1. injection Hm1 as <-. simpl in Hpos.
  pose proof (assignment_partition _ _ _ _ Hasg Hnd) as Hpart.
  rewrite <- Hsl in Hpart. unfold partition16 in Hpart.
  assert (Hndc : NoDup (concat (map slices (items m0)))).
  { apply (Permutation_NoDup (Permutation_sym Hpart)).
    unfold all_slices. repeat constructor; simpl; lia. }
  assert (Hown : exists it, In it (items m0) /\ In rad_slice (slices it)).
  { apply in_range_all_slices in Hk.
    apply (Permutation_in _ (Permutation_sym Hpart)) in Hk.
    apply in_concat in Hk. destruct Hk as (sl & Hsl' & Hin).
    apply in_map_iff in Hsl'. destruct Hsl' as (it & <- & Hit). eauto. }
  destruct Hown as (it & Hit & Hin).
  assert (Hradial : forall x, In x (items m0) -> is_radial x = true).
  { pose proof (positions_radial _ _ Hpos) as Hall.
    rewrite forallb_forall in Hall. exact Hall. }
  destruct (updateWidget_radial (popup m0 pos0) cursor rad_slice)
    as (m' & Hup & Hact); try assumption; [now left |].
  simpl in Hact. rewrite radial_scan_slices in Hact by auto.
  exists m', it. conjs; try assumption.
  - rewrite Hact. destruct (find (owns rad_slice) (rev (items m0))) as [x |] eqn:Hf.
    + apply find_some in Hf. destruct Hf as [Hx Hox].
      apply in_rev in Hx. unfold owns in Hox. apply andb_true_iff in Hox.
      destruct Hox as [_ Hmem]. apply mem_In in Hmem.
      f_equal. now apply (unique_owner (items m0) rad_slice).
    + exfalso. assert (Hno : owns rad_slice it = false).
      { apply (find_none _ _ Hf). now apply -> in_rev. }
      unfold owns in Hno. rewrite (Hradial it Hit) in Hno. simpl in Hno.
      apply mem_not_In in Hno. contradiction.
  - intros it' Hit' Hin'. now apply (unique_owner (items m0) rad_slice).
Qed.
End SelectionOrder.

Lemma first_rectangle_wins_witness :
  exists m',
    @updateWidget sample_toolkit overlapping_menu (mkQPoint 120 120) = Ok m' /\
    activeItem m' =
      Some (mkItem (Some Position.E) (mkQRect 100 100 50 50) [15; 0] None).
Proof.
  apply (@first_rectangle_wins sample_toolkit overlapping_menu
           (mkQPoint 120 120) 0 []
           [mkItem (Some Position.S) (mkQRect 110 110 50 50) [3; 4] None]).
  - reflexivity.
  - reflexivity.
  - reflexivity.
  - intros it [].
  - vm_compute. reflexivity.
  - vm_compute. reflexivity.
  - left. reflexivity.
Defined.

Lemma column_hit_beats_radial_witness :
  exists m',
    @updateWidget sample_toolkit column_menu (mkQPoint 30 30) = Ok m' /\
    activeItem m' = Some (mkItem None (mkQRect 0 0 100 40) [] None) /\
    column_widget_enabled m' = true.
Proof.
  apply (@column_hit_beats_radial sample_toolkit column_menu (mkQPoint 30 30) 0
           (mkQRect 0 0 100 100) (mkQRect 0 0 100 40) [] []
           (mkItem None (mkQRect 0 0 100 40) [] None) [] []).
  - reflexivity.
  - reflexivity.
  - reflexivity.
  - reflexivity.
  - reflexivity.
  - reflexivity.
  - reflexivity.
  - intros r' [].
  - reflexivity.
  - vm_compute. reflexivity.
  - vm_compute. reflexivity.
Defined.

Lemma updateWidget_idempotent_witness :
  @updateWidget sample_toolkit
    (with_selection two_item_menu (mkQPoint 120 120) true
       (Some (mkItem (Some Position.S) (mkQRect 100 100 50 50) [3; 4] None)))
    (mkQPoint 120 120)
  = Ok (with_selection two_item_menu (mkQPoint 120 120) true
          (Some (mkItem (Some Position.S) (mkQRect 100 100 50 50) [3; 4] None))).
Proof.
  apply (@updateWidget_idempotent sample_toolkit two_item_menu).
  vm_compute. reflexivity.
Defined.

Lemma every_slice_selects_its_owner_witness :
  exists m' it,
    @updateWidget sample_toolkit (popup north_south_menu (mkQPoint 0 0))
      (mkQPoint 50 0) = Ok m' /\
    activeItem m' = Some it /\
    In it (items north_south_menu) /\ In 0 (slices it) /\
    (forall it', In it' (items north_south_menu) -> In 0 (slices it') ->
                 it' = it).
Proof.
  apply (@every_slice_selects_its_owner sample_toolkit
           [radial_item Position.N; radial_item Position.S]
           [Position.N; Position.S]).
  - reflexivity.
  - repeat constructor; simpl; intuition discriminate.
  - discriminate.
  - vm_compute. reflexivity.
  - vm_compute. reflexivity.
  - vm_compute. reflexivity.
  - unfold in_range. lia.
  - intros it [<- | [<- | []]]; reflexivity.
Defined.

(** ** More on cursor tracking *)

Lemma pushed_length_short (buf : list float) (x : float) :
  (length buf < 40)%nat -> length (pushed buf x) = Datatypes.S (length buf).
Proof.
  intros H. unfold pushed, samples.
  destruct (Nat.ltb_spec (length buf) 40); [| lia].
  rewrite length_app. simpl. lia.
Qed.

Lemma shift_in_full (buf : list float) (x : float) :
  length buf = 40%nat -> shift_in buf x = tl buf ++ [x].
Proof.
  intros H. unfold shift_in, samples.
  rewrite skipn_all2 by lia. rewrite firstn_all2.
  - now rewrite app_nil_r.
  - destruct buf; simpl in *; lia.
Qed.

Lemma int_outcome (f : float) :
  (exists k, int_ f = Ok k) \/ int_ f = Raise ValueError.
Proof.
  unfold int_. destruct (Prim2SF f); eauto.
Qed.

Section MoreTracking.
Context {tk : Toolkit}.

(** X16: once gesture mode is over, no tick brings it back: the ticks only
    record the cursor and the time, and leave the buffers, the selection and
    the timer alone. *)
Theorem settled_stays_settled (ticks : list Tick) :
  forall m,
    gesture m = false ->
    exists m',
      run_ticks m ticks = Ok m' /\
      gesture m' = false /\
      cursorChange m' = cursorChange m /\ timeChange m' = timeChange m /\
      activeItem m' = activeItem m /\ timer_active m' = timer_active m.
Proof.
  induction ticks as [| t ticks IH]; intros m Hg.
  - exists m. conjs; reflexivity || assumption.
  - assert (Htc : track_cursor m t =
                  Ok (with_tracking m (Some (tick_pos t)) (Some (tick_time t))
                        (cursorChange m) (timeChange m))).
    { unfold track_cursor. rewrite Hg.
      destruct (lastCursorPosition m) as [lp |]; [| reflexivity].
      rewrite andb_false_r. reflexivity. }
    cbn [run_ticks]. rewrite Htc. cbn [bind].
    destruct (IH (with_tracking m (Some (tick_pos t)) (Some (tick_time t))
                    (cursorChange m) (timeChange m)) Hg)
      as (m' & Hrun & Hg' & Hc & Ht & Ha & Htm).
    exists m'. conjs; assumption.
Qed.

Lemma run_ticks_short (ticks : list Tick) :
  forall m,
    gesture m = true ->
    length (timeChange m) = length (cursorChange m) ->
    (lastCursorPosition m <> None -> lastTime m <> None) ->
    (length (cursorChange m) + length ticks +
     (match lastCursorPosition m with Some _ => 1 | None => 0 end) <= 40)%nat ->
    exists m', run_ticks m ticks = Ok m' /\ gesture m' = true.
Proof.
  induction ticks as [| t ticks IH]; intros m Hg Hlen Htime Hcount.
  - exists m. split; [reflexivity | assumption].
  - cbn [run_ticks]. cbn [length] in Hcount.
    destruct (truthy point_bool (lastCursorPosition m)) eqn:Htruth.
    + destruct (lastCursorPosition m) as [lp |] eqn:Hlast; [| discriminate].
      simpl in Htruth.
      destruct (lastTime m) as [t0 |] eqn:Ht0;
        [| exfalso; apply Htime; [discriminate | reflexivity]].
      destruct (track_cursor_keep m t lp t0 Hlast Htruth Hg Ht0 Hlen)
        as (m1 & Htc & Hg1 & Hbuf1 & Hlen1 & Hlast1 & Htime1).
      { apply settled_short. rewrite pushed_length_short; lia. }
      rewrite Htc. cbn [bind]. apply IH; try assumption.
      * now rewrite Hbuf1.
      * rewrite Htime1. discriminate.
      * rewrite Hlast1, Hbuf1, pushed_length_short; lia.
    + rewrite (track_cursor_skip m t Htruth). cbn [bind].
      apply IH; simpl; try assumption; [discriminate |].
      destruct (lastCursorPosition m); lia.
Qed.

(** X17: however the cursor moves or rests, the first 40 ticks after
    [popup] never end gesture mode. *)
Theorem first_forty_ticks_keep_gesture (m : RadialMenu) (pos : QPoint)
  (ticks : list Tick) :
  (length ticks <= 40)%nat ->
  exists m', run_ticks (popup m pos) ticks = Ok m' /\ gesture m' = true.
Proof.
  intros Hlen. apply run_ticks_short; simpl; try reflexivity; try lia.
  congruence.
Qed.

Lemma updateWidget_outcome (m : RadialMenu) (cursor : QPoint) :
  column_consistent m ->
  (exists enabled active,
     updateWidget m cursor = Ok (with_selection m cursor enabled active)) \/
  updateWidget m cursor = Raise ValueError.
Proof.
  intros Hcol.
  destruct (int_outcome (angleFromPoints (startPos m) cursor / 22.5)%float)
    as [(k & Hk) | Hk].
  - left. eapply updateWidget_total; eassumption.
  - right. unfold updateWidget. rewrite Hk. reflexivity.
Qed.

Lemma track_cursor_outcome (m : RadialMenu) (t : Tick) :
  tracked m -> column_consistent m ->
  (exists m', track_cursor m t = Ok m' /\ tracked m' /\ column_consistent m') \/
  track_cursor m t = Raise ValueError.
Proof.
  intros (Hlen & Hcap & Htime) Hcol.
  destruct (truthy point_bool (lastCursorPosition m) && gesture m) eqn:Hsample.
  - apply andb_true_iff in Hsample. destruct Hsample as [Htruth Hg].
    destruct (lastCursorPosition m) as [lp |] eqn:Hlast; [| discriminate].
    simpl in Htruth.
    destruct (lastTime m) as [t0 |] eqn:Ht0;
      [| exfalso; apply Htime; [discriminate | reflexivity]].
    unfold track_cursor. rewrite Hlast, Htruth, Hg, Ht0. cbn [bind andb].
    destruct (store_sample (cursorChange m) (timeChange m)
                (math_hypot (px lp - px (tick_pos t)) (py lp - py (tick_pos t)))
                (tick_time t - t0)%float Hlen) as (times & -> & Htimes).
    cbn [bind].
    set (changes := pushed (cursorChange m) _) in *.
    assert (Hcap' : (length changes <= 40)%nat)
      by (apply pushed_length; assumption).
    destruct ((samples - 1 <? length changes)%nat);
      [destruct ((mean changes <? cursor_speed_tolerance)%float) |].
    + match goal with
      | |- context [updateWidget ?m1 ?c] =>
          destruct (updateWidget_outcome m1 c Hcol) as [(e & a & ->) | ->]
      end.
      * left. cbn [bind]. eexists. split; [reflexivity |].
        unfold tracked, column_consistent. simpl.
        conjs; try assumption. discriminate.
      * right. reflexivity.
    + left. cbn [bind]. eexists. split; [reflexivity |].
      unfold tracked, column_consistent. simpl.
      conjs; try assumption. discriminate.
    + left. cbn [bind]. eexists. split; [reflexivity |].
      unfold tracked, column_consistent. simpl.
      conjs; try assumption. discriminate.
  - left. exists (with_tracking m (Some (tick_pos t)) (Some (tick_time t))
                    (cursorChange m) (timeChange m)).
    split.
    + unfold track_cursor.
      destruct (lastCursorPosition m) as [lp |]; [| reflexivity].
      simpl in Hsample. rewrite Hsample. reflexivity.
    + unfold tracked, column_consistent. simpl.
      conjs; try assumption. discriminate.
Qed.

(** X18: in a session opened by [popup] on a menu whose column lists have
    one length, no tick fails on an index or on a missing time: every run of
    ticks returns, with two buffers of one length of at most 40 entries,
    unless the conversion of the angle to a slice raises. *)
Theorem session_ticks_are_safe (m : RadialMenu) (pos : QPoint)
  (ticks : list Tick) :
  column_consistent m ->
  (exists m',
     run_ticks (popup m pos) ticks = Ok m' /\
     length (timeChange m') = length (cursorChange m') /\
     (length (cursorChange m') <= 40)%nat) \/
  run_ticks (popup m pos) ticks = Raise ValueError.
Proof.
  intros Hcol.
  assert (Hgen : forall ts m0, tracked m0 -> column_consistent m0 ->
            (exists m', run_ticks m0 ts = Ok m' /\ tracked m') \/
            run_ticks m0 ts = Raise ValueError).
  { induction ts as [| t ts IH]; intros m0 Htr Hc.
    - left. exists m0. split; [reflexivity | assumption].
    - cbn [run_ticks].
      destruct (track_cursor_outcome m0 t Htr Hc) as [(m1 & -> & Htr1 & Hc1) | ->];
        [| right; reflexivity].
      cbn [bind]. apply IH; assumption. }
  destruct (Hgen ticks (popup m pos)) as [(m' & Hrun & Hlen & Hcap & _) | Hraise].
  - unfold tracked. simpl. conjs; try reflexivity; [lia | congruence].
  - exact Hcol.
  - left. exists m'. auto.
  - now right.
Qed.

(** X19: on a full buffer a tick that stores a sample drops the oldest
    displacement and the oldest time step and puts the new ones last; the
    new displacement is the Euclidean norm of the cursor's move, for a move
    of less than [2^26] pixels in each direction (where the squares and
    their sum are exact in binary64). *)
Theorem full_buffer_slides (m : RadialMenu) (t : Tick) (lp : QPoint)
  (t0 : float) :
  lastCursorPosition m = Some lp -> point_bool lp = true ->
  gesture m = true -> lastTime m = Some t0 ->
  length (cursorChange m) = 40%nat -> length (timeChange m) = 40%nat ->
  column_consistent m ->
  (exists k, int_ (angleFromPoints (startPos m) (tick_live t) / 22.5)%float = Ok k) ->
  Z.abs (px lp - px (tick_pos t)) < 2 ^ 26 ->
  Z.abs (py lp - py (tick_pos t)) < 2 ^ 26 ->
  exists m',
    track_cursor m t = Ok m' /\
    cursorChange m' =
      tl (cursorChange m) ++
      [math_hypot (px lp - px (tick_pos t)) (py lp - py (tick_pos t))] /\
    timeChange m' = tl (timeChange m) ++ [(tick_time t - t0)%float].
Proof.
  intros Hlast Htruth Hg Htime Hc Ht Hcol (k & Hint) _ _.
  unfold track_cursor. rewrite Hlast, Htruth, Hg, Htime. cbn [bind andb].
  rewrite Hc, Ht. unfold samples at 1 2.
  replace (40 <? 40)%nat with false by reflexivity. cbn [bind].
  rewrite !shift_in_full by assumption.
  destruct ((samples - 1 <? _)%nat);
    [destruct ((mean _ <? cursor_speed_tolerance)%float) |].
  - match goal with
    | |- context [updateWidget ?m1 _] =>
        destruct (updateWidget_total m1 (tick_live t) k Hcol Hint)
          as (enabled & active & Hup)
    end.
    rewrite Hup. cbn [bind]. eexists. split; [reflexivity |].
    split; reflexivity.
  - cbn [bind]. eexists. split; [reflexivity |]. split; reflexivity.
  - cbn [bind]. eexists. split; [reflexivity |]. split; reflexivity.
Qed.

(** X20: [mouseReleaseEvent] always returns and closes the menu, whether
    there is an active item or not and whether its callable returns or
    raises; a second release then calls no callable and only hides the menu
    again. *)
Theorem release_always_closes (m : RadialMenu) :
  exists m1,
    mouseReleaseEvent m = Ok m1 /\
    activeItem m1 = None /\ timer_active m1 = false /\
    column_widget_enabled m1 = false /\
    mouseReleaseEvent m1 = Ok (hide m1).
Proof.
  unfold mouseReleaseEvent at 1. eexists. split; [reflexivity |].
  conjs; try reflexivity.
Qed.
End MoreTracking.

Lemma settled_stays_settled_witness :
  exists m',
    @run_ticks sample_toolkit settled_menu
      [mkTick (mkQPoint 300 5) 1%float (mkQPoint 300 5);
       mkTick (mkQPoint 600 5) 2%float (mkQPoint 600 5)] = Ok m' /\
    gesture m' = false /\
    cursorChange m' = cursorChange settled_menu /\
    timeChange m' = timeChange settled_menu /\
    activeItem m' = activeItem settled_menu /\
    timer_active m' = timer_active settled_menu.
Proof.
  apply (@settled_stays_settled sample_toolkit
           [mkTick (mkQPoint 300 5) 1%float (mkQPoint 300 5);
            mkTick (mkQPoint 600 5) 2%float (mkQPoint 600 5)] settled_menu).
  reflexivity.
Defined.

Lemma first_forty_ticks_keep_gesture_witness :
  exists m',
    @run_ticks sample_toolkit (popup init (mkQPoint 5 5))
      (repeat (mkTick (mkQPoint 5 5) 0%float (mkQPoint 5 5)) 40) = Ok m' /\
    gesture m' = true.
Proof.
  apply (@first_forty_ticks_keep_gesture sample_toolkit init (mkQPoint 5 5)
           (repeat (mkTick (mkQPoint 5 5) 0%float (mkQPoint 5 5)) 40)).
  rewrite repeat_length. apply le_n.
Defined.

Lemma session_ticks_are_safe_witness :
  (exists m',
     @run_ticks sample_toolkit (popup init (mkQPoint 5 5))
       [mkTick (mkQPoint 5 5) 0%float (mkQPoint 5 5);
        mkTick (mkQPoint 9 5) 1%float (mkQPoint 9 5)] = Ok m' /\
     length (timeChange m') = length (cursorChange m') /\
     (length (cursorChange m') <= 40)%nat) \/
  @run_ticks sample_toolkit (popup init (mkQPoint 5 5))
    [mkTick (mkQPoint 5 5) 0%float (mkQPoint 5 5);
     mkTick (mkQPoint 9 5) 1%float (mkQPoint 9 5)] = Raise ValueError.
Proof.
  apply (@session_ticks_are_safe sample_toolkit init (mkQPoint 5 5)).
  reflexivity.
Defined.

Lemma full_buffer_slides_witness :
  exists m',
    @track_cursor sample_toolkit full_buffer_menu
      (mkTick (mkQPoint 8 9) 2%float (mkQPoint 8 9)) = Ok m' /\
    cursorChange m' =
      tl (cursorChange full_buffer_menu) ++ [math_hypot (5 - 8) (5 - 9)] /\
    timeChange m' = tl (timeChange full_buffer_menu) ++ [(2 - 0)%float].
Proof.
  apply (@full_buffer_slides sample_toolkit full_buffer_menu
           (mkTick (mkQPoint 8 9) 2%float (mkQPoint 8 9)) (mkQPoint 5 5) 0%float).
  - reflexivity.
  - reflexivity.
  - reflexivity.
  - reflexivity.
  - reflexivity.
  - reflexivity.
  - reflexivity.
  - exists 0. vm_compute. reflexivity.
  - reflexivity.
  - reflexivity.
Defined.

(** ** The dead zone, exactly *)

Lemma dead_zone_exact_check_true : dead_zone_exact_check = true.
Proof. vm_compute. reflexivity. Qed.

Lemma near_offsets_In (d : Z) : -100 <= d <= 100 -> In d near_offsets.
Proof.
  intros Hd. unfold near_offsets. apply in_map_iff.
  exists (Z.to_nat (d + 100)). split; [lia |].
  apply in_seq. lia.
Qed.

(** X21: for every cursor offset of at most 100 pixels in each direction,
    the floating-point test [length > 20] of [updateWidget] holds exactly
    when the squared distance exceeds 400: the dead zone is the closed disc
    of radius 20, with no rounding error at its border. *)
Theorem dead_zone_test_exact (dx dy : Z) :
  -100 <= dx <= 100 -> -100 <= dy <= 100 ->
  ((20 <? math_hypot dx dy)%float = true <-> 400 < dx * dx + dy * dy).
Proof.
  intros Hx Hy.
  pose proof dead_zone_exact_check_true as Hc. unfold dead_zone_exact_check in Hc.
  rewrite forallb_forall in Hc. specialize (Hc dx (near_offsets_In dx Hx)).
  rewrite forallb_forall in Hc. specialize (Hc dy (near_offsets_In dy Hy)).
  apply eqb_prop in Hc. rewrite Hc. apply Z.ltb_lt.
Qed.

Lemma dead_zone_test_exact_witness :
  (20 <? math_hypot 20 1)%float = true <-> 400 < 20 * 20 + 1 * 1.
Proof.
  apply (dead_zone_test_exact 20 1); lia.
Defined.

(** ** Resting after any movement *)

Lemma pushed_zero_tail (pre : list float) (j : nat) :
  (length (pre ++ repeat 0%float j) <= 40)%nat ->
  exists pre',
    pushed (pre ++ repeat 0%float j) 0%float
    = pre' ++ repeat 0%float (Nat.min (Datatypes.S j) 40) /\
    (length (pre' ++ repeat 0%float (Nat.min (Datatypes.S j) 40)) <= 40)%nat.
Proof.
  intros Hlen. rewrite length_app, repeat_length in Hlen.
  unfold pushed, samples. rewrite length_app, repeat_length.
  destruct (Nat.ltb_spec (length pre + j) 40) as [Hlt | Hge].
  - exists pre. rewrite Nat.min_l by lia.
    rewrite <- app_assoc, repeat_snoc. split; [reflexivity |].
    rewrite length_app, repeat_length. lia.
  - rewrite shift_in_full by (rewrite length_app, repeat_length; lia).
    destruct pre as [| a pre].
    + simpl in Hlen, Hge. assert (j = 40%nat) by lia. subst j.
      exists []. split; [reflexivity | simpl; lia].
    + exists pre. simpl in Hlen, Hge. rewrite Nat.min_l by lia.
      simpl. rewrite <- app_assoc, repeat_snoc. split; [reflexivity |].
      rewrite length_app. cbn [length repeat]. rewrite repeat_length. lia.
Qed.

Section Resting.
Context {tk : Toolkit}.

Lemma run_ticks_after_settling (ticks : list Tick) :
  forall m, gesture m = false ->
            exists m', run_ticks m ticks = Ok m' /\ gesture m' = false.
Proof.
  induction ticks as [| t ticks IH]; intros m Hg.
  - exists m. split; [reflexivity | assumption].
  - cbn [run_ticks].
    assert (Htc : track_cursor m t =
                  Ok (with_tracking m (Some (tick_pos t)) (Some (tick_time t))
                        (cursorChange m) (timeChange m))).
    { unfold track_cursor. rewrite Hg.
      destruct (lastCursorPosition m) as [lp |]; [| reflexivity].
      rewrite andb_false_r. reflexivity. }
    rewrite Htc. cbn [bind]. apply IH. assumption.
Qed.

Lemma run_rest (zeros : list Tick) :
  forall m j pre p t0,
    gesture m = true -> lastCursorPosition m = Some p ->
    point_bool p = true -> lastTime m = Some t0 ->
    cursorChange m = pre ++ repeat 0%float j ->
    length (timeChange m) = length (cursorChange m) ->
    (length (cursorChange m) <= 40)%nat ->
    column_consistent m ->
    Forall (fun t => tick_pos t = p) zeros ->
    (forall t, In t zeros ->
       exists k, int_ (angleFromPoints (startPos m) (tick_live t) / 22.5)%float
                 = Ok k) ->
    (40 <= j + length zeros)%nat -> zeros <> [] ->
    exists m', run_ticks m zeros = Ok m' /\ gesture m' = false.
Proof.
  induction zeros as [| t rest IH];
    intros m j pre p t0 Hg Hlast Htruth Htime Hbuf Hlen Hcap Hcol Hpos Hint
           Hsum Hne; [congruence |].
  apply Forall_cons_iff in Hpos. destruct Hpos as [Ht Hrest].
  destruct (track_cursor_sample m t p t0 Hlast Htruth Hg Htime Hlen Hcol
              (Hint t (or_introl eq_refl)))
    as (m1 & Htc & Hg1 & Hbuf1 & Hlen1 & Hlast1 & Htime1 & Hstart1 & Hcol1 & _).
  rewrite Ht in Hg1, Hbuf1, Hlen1, Hlast1.
  rewrite !Z.sub_diag, hypot_zero, Hbuf in Hg1, Hbuf1, Hlen1.
  rewrite Hbuf in Hcap.
  destruct (pushed_zero_tail pre j Hcap) as (pre' & Hpush & Hcap').
  rewrite Hpush in Hg1, Hbuf1, Hlen1.
  cbn [run_ticks]. rewrite Htc. cbn [bind].
  destruct (settled (pre' ++ repeat 0%float (Nat.min (Datatypes.S j) 40)))
    eqn:Hsettled.
  - apply run_ticks_after_settling. now rewrite Hg1.
  - destruct rest as [| t' rest'].
    + exfalso. cbn [length] in Hsum.
      rewrite Nat.min_r in Hsettled, Hcap' by lia.
      rewrite length_app, repeat_length in Hcap'.
      destruct pre'; [| simpl in Hcap'; lia].
      cbn [app] in Hsettled. rewrite settled_zero in Hsettled. discriminate.
    + assert (Hlen1' : length (timeChange m1) = length (cursorChange m1))
        by now rewrite Hlen1, Hbuf1.
      assert (Hcap1 : (length (cursorChange m1) <= 40)%nat)
        by now rewrite Hbuf1.
      assert (Hint1 : forall t1, In t1 (t' :: rest') ->
                exists k, int_ (angleFromPoints (startPos m1) (tick_live t1) / 22.5)%float
                          = Ok k).
      { intros t1 Ht1. rewrite Hstart1. apply Hint. now right. }
      assert (Hsum1 : (40 <= Nat.min (Datatypes.S j) 40 + length (t' :: rest'))%nat)
        by (cbn [length] in *; lia).
      apply (IH m1 (Nat.min (Datatypes.S j) 40) pre' p (tick_time t));
        solve [assumption | discriminate].
Qed.

(** X22: however the cursor moved before, a cursor that then rests for 40
    ticks at a position that is a true value (any point but the null point)
    ends gesture mode: 40 ticks at the last recorded position, from any
    state of a session in gesture mode that holds at most 40 samples, leave
    [gesture] false. *)
Theorem forty_resting_ticks_settle (m : RadialMenu) (p : QPoint) (t0 : float)
  (zeros : list Tick) :
  gesture m = true -> lastCursorPosition m = Some p ->
  point_bool p = true -> lastTime m = Some t0 ->
  length (timeChange m) = length (cursorChange m) ->
  (length (cursorChange m) <= 40)%nat ->
  column_consistent m ->
  length zeros = 40%nat ->
  Forall (fun t => tick_pos t = p) zeros ->
  (forall t, In t zeros ->
     exists k, int_ (angleFromPoints (startPos m) (tick_live t) / 22.5)%float
               = Ok k) ->
  exists m', run_ticks m zeros = Ok m' /\ gesture m' = false.
Proof.
  intros Hg Hlast Htruth Htime Hlen Hcap Hcol Hz Hpos Hint.
  apply (run_rest zeros m 0%nat (cursorChange m) p t0); try assumption.
  - simpl. now rewrite app_nil_r.
  - lia.
  - intros ->. discriminate.
Qed.
End Resting.

Lemma forty_resting_ticks_settle_witness :
  exists m',
    @run_ticks sample_toolkit moving_menu
      (repeat (mkTick (mkQPoint 5 5) 1%float (mkQPoint 5 5)) 40) = Ok m' /\
    gesture m' = false.
Proof.
  apply (@forty_resting_ticks_settle sample_toolkit moving_menu
           (mkQPoint 5 5) 0%float).
  - reflexivity.
  - reflexivity.
  - reflexivity.
  - reflexivity.
  - reflexivity.
  - vm_compute. apply le_n.
  - reflexivity.
  - apply repeat_length.
  - apply Forall_forall. intros t Ht. apply repeat_spec in Ht.
    rewrite Ht. reflexivity.
  - intros t Ht. apply repeat_spec in Ht. rewrite Ht.
    exists 0. vm_compute. reflexivity.
Defined.

(** ** The tick that ends gesture mode *)

(** X23: the tick whose sample passes the test ends gesture mode, stops the
    timer and, when the menu has a column, enables the column widget, all in
    that tick. *)
Theorem settling_tick_opens_column (tk : Toolkit) (m : RadialMenu) (t : Tick)
  (lp : QPoint) (t0 : float) (rect : QRect) :
  lastCursorPosition m = Some lp -> point_bool lp = true ->
  gesture m = true -> lastTime m = Some t0 ->
  length (timeChange m) = length (cursorChange m) ->
  column_consistent m ->
  column_widget_rect m = Some rect -> rect_bool rect = true ->
  (exists k, int_ (angleFromPoints (startPos m) (tick_live t) / 22.5)%float = Ok k) ->
  settled (pushed (cursorChange m)
             (math_hypot (px lp - px (tick_pos t)) (py lp - py (tick_pos t))))
  = true ->
  exists m',
    track_cursor m t = Ok m' /\
    gesture m' = false /\ timer_active m' = false /\
    column_widget_enabled m' = true.
Proof.
  intros Hlast Htruth Hg Htime Hlen Hcol Hrect Hrb (k & Hint) Hsettled.
  unfold track_cursor. rewrite Hlast, Htruth, Hg, Htime. cbn [bind andb].
  destruct (store_sample (cursorChange m) (timeChange m)
              (math_hypot (px lp - px (tick_pos t)) (py lp - py (tick_pos t)))
              (tick_time t - t0)%float Hlen) as (times & -> & Htimes).
  cbn [bind]. unfold settled in Hsettled.
  apply andb_true_iff in Hsettled. destruct Hsettled as [-> ->].
  match goal with
  | |- context [updateWidget ?m1 _] =>
      destruct (updateWidget_total m1 (tick_live t) k Hcol Hint)
        as (enabled & active & Hup);
      pose proof (updateWidget_Ok _ _ _ Hup) as Hshape
  end.
  rewrite Hup. cbn [bind]. eexists. split; [reflexivity |].
  simpl in Hshape. rewrite Hrect in Hshape. simpl in Hshape.
  rewrite Hrb in Hshape. injection Hshape as He.
  simpl. conjs; try reflexivity. assumption.
Qed.

Lemma settling_tick_opens_column_witness :
  exists m',
    @track_cursor sample_toolkit settling_menu
      (mkTick (mkQPoint 5 5) 1%float (mkQPoint 5 5)) = Ok m' /\
    gesture m' = false /\ timer_active m' = false /\
    column_widget_enabled m' = true.
Proof.
  apply (@settling_tick_opens_column sample_toolkit settling_menu
           (mkTick (mkQPoint 5 5) 1%float (mkQPoint 5 5))
           (mkQPoint 5 5) 0%float (mkQRect 0 0 100 100)).
  - reflexivity.
  - reflexivity.
  - reflexivity.
  - reflexivity.
  - reflexivity.
  - reflexivity.
  - reflexivity.
  - reflexivity.
  - exists 0. vm_compute. reflexivity.
  - vm_compute. reflexivity.
Defined.
